(** * staternd: repository, store binding, action tracker and selector binding

    A shallow embedding of [src/state.ts].  Mutable JavaScript state
    (object fields, closure variables, the emitter's listener array)
    becomes explicit state passing over a record; an [async] function with
    a single [await] becomes a pair: the code run up to the [await], and
    the code run when the awaited promise settles.

    Callbacks handed in by client code (repository listeners, the
    tracker's [onChange]) are observers: being called is recorded in a
    log, and they return normally without calling back into the module. *)

From stdpp Require Import gmap strings list fin_maps.

(** ** JavaScript values *)

(** Identity of a heap object. *)
Definition addr := nat.

(** Runtime values.  Of the numbers only the integers and [NaN] are
    represented, the integers without the bound up to which a double is
    exact. *)
Inductive value :=
| VUndefined
| VNull
| VBool (b : bool)
| VNum (n : Z)
| VNaN
| VStr (s : string)
| VObj (a : addr).

#[global] Instance value_eq_dec : EqDecision value.
Proof. solve_decision. Defined.

(** [a === b]: objects by identity, primitives by value, [NaN] equal to
    nothing. *)
Definition strict_equals (a b : value) : bool :=
  match a, b with
  | VNaN, _ | _, VNaN => false
  | _, _ => bool_decide (a = b)
  end.

(** How a promise settles. *)
Inductive outcome :=
| Fulfilled (result : value)
| Rejected (error : value).

#[global] Instance outcome_eq_dec : EqDecision outcome.
Proof. solve_decision. Defined.

(** An [async] function whose body has one [await]: [enter] runs when the
    function is called, up to the [await]; [resume] runs when the awaited
    promise has settled and yields how the function's own promise
    settles. *)
Record async_fn (W : Type) := AsyncFn {
  enter : W → W;
  resume : outcome → W → W * outcome
}.
Arguments AsyncFn {W} _ _.
Arguments enter {W} _ _.
Arguments resume {W} _ _ _.

(** [Object.entries], [Object.keys] and [Object.fromEntries] on an object
    used as a map from strings.  In [fromEntries] a later entry overwrites
    an earlier one with the same key. *)
Definition entries {A} (o : gmap string A) : list (string * A) := map_to_list o.
Definition keys {A} (o : gmap string A) : list string := (entries o).*1.
Definition fromEntries {A} (l : list (string * A)) : gmap string A :=
  fold_left (λ o kv, <[kv.1 := kv.2]> o) l ∅.

(** ** Repository, store binding and selector binding *)

Module Repo.

(** A function registered on the emitter.  [Callback f] is the client
    function object [f]; [Refresh c] is the [refresh] closure of the
    [useSelector] instance [c]. *)
Inductive listener :=
| Callback (f : nat)
| Refresh (c : nat).

#[global] Instance listener_eq_dec : EqDecision listener.
Proof. solve_decision. Defined.

(** What a [useSelector] instance holds: its arguments, the ref
    [selectedStateRef.current], and how often [forceRender] was called. *)
Record hook := Hook {
  selector : value → value;
  equalityFn : value → value → bool;
  current : value;
  renders : nat
}.

(** One listener invocation made by [emit]: listener, first and second
    argument. *)
Definition call : Type := listener * value * value.

Record world := World {
  state : value;               (* repository.state *)
  listeners : list listener;   (* the emitter's "change" listeners, oldest first *)
  hooks : gmap nat hook;       (* useSelector instances *)
  frames : gmap nat string;    (* store-bound calls suspended at their await, and their action's key *)
  next : nat;                  (* id of the next store-bound call *)
  calls : list call            (* listener invocations so far, oldest first *)
}.

Definition set_state v w := World v (listeners w) (hooks w) (frames w) (next w) (calls w).
Definition set_listeners ls w := World (state w) ls (hooks w) (frames w) (next w) (calls w).
Definition set_hooks hs w := World (state w) (listeners w) hs (frames w) (next w) (calls w).
Definition set_frames fs w := World (state w) (listeners w) (hooks w) fs (next w) (calls w).
Definition set_next n w := World (state w) (listeners w) (hooks w) (frames w) n (calls w).
Definition log_call (c : call) w :=
  World (state w) (listeners w) (hooks w) (frames w) (next w) (calls w ++ [c]).

(** *** The emitter ([events]) *)

(** [emitter.on("change", l)]: appended, also when already present. *)
Definition on (l : listener) (ls : list listener) : list listener := ls ++ [l].

Fixpoint remove_first (l : listener) (ls : list listener) : list listener :=
  match ls with
  | [] => []
  | x :: r => if decide (x = l) then r else x :: remove_first l r
  end.

(** [emitter.off("change", l)]: the array is scanned from its end and the
    first match found, the most recently added one, is removed; nothing
    happens when there is none. *)
Definition off (l : listener) (ls : list listener) : list listener :=
  reverse (remove_first l (reverse ls)).

(** The [refresh] function of [useSelector]'s effect. *)
Definition refresh (c : nat) (w : world) : world :=
  match hooks w !! c with
  | None => w
  | Some h =>
    let newSelectedState := selector h (state w) in
    if negb (equalityFn h newSelectedState (current h)) then
      set_hooks (<[c := Hook (selector h) (equalityFn h) newSelectedState (S (renders h))]>
                   (hooks w)) w
    else w
  end.

(** Calling a listener with [(newState, oldState)]. *)
Definition invoke_listener (newState oldState : value) (w : world) (l : listener) : world :=
  let w := log_call (l, newState, oldState) w in
  match l with
  | Callback _ => w
  | Refresh c => refresh c w
  end.

(** [emitter.emit("change", a, b)]: the listeners registered when [emit]
    starts are called in order. *)
Definition emit (a b : value) (w : world) : world :=
  fold_left (invoke_listener a b) (listeners w) w.

(** *** createRepository *)

Definition createRepository (initialState : value) : world :=
  World initialState [] ∅ ∅ 0%nat [].

Definition setState (nextState : value) (w : world) : world :=
  let prevState := state w in
  let w := set_state nextState w in
  emit nextState prevState w.

(** [onChange] registers the listener and returns a closure; [unsubscribe l]
    is what calling that closure does. *)
Definition unsubscribe (l : listener) (w : world) : world :=
  set_listeners (off l (listeners w)) w.

Definition onChange (l : listener) (w : world) : world * (world → world) :=
  (set_listeners (on l (listeners w)) w, unsubscribe l).

(** *** storifyAction, storifyActions, createStore *)

(** An underlying action is an opaque function object; how its promise
    settles is decided by the environment. *)
Definition Action := nat.

Definition storifyAction (action : Action) : async_fn world :=
  {| enter := λ w, w;                       (* action(...args) *)
     resume := λ o w,
       match o with
       | Fulfilled result => (setState result w, Fulfilled VUndefined)
       | Rejected error => (w, Rejected error)
       end |}.

Definition storifyActions (actions : gmap string Action) : gmap string (async_fn world) :=
  fromEntries ((λ kv, (kv.1, storifyAction kv.2)) <$> entries actions).

Record store := Store {
  repository : world;
  actions : gmap string (async_fn world)
}.

Definition createStore (repository : world) (actions : gmap string Action) : store :=
  Store repository (storifyActions actions).

(** *** useSelector *)

Definition isEqualRef (a b : value) : bool := strict_equals a b.

(** First render of instance [c]: [useRef(selector(repository.state))].
    Later renders keep the ref as it is. *)
Definition render (c : nat) (sel : value → value) (eq : value → value → bool)
    (w : world) : world :=
  match hooks w !! c with
  | Some _ => w
  | None => set_hooks (<[c := Hook sel eq (sel (state w)) 0%nat]> (hooks w)) w
  end.

(** The effect, [repository.onChange(refresh)], and its cleanup. *)
Definition effect (c : nat) (w : world) : world := (onChange (Refresh c) w).1.
Definition cleanup (c : nat) (w : world) : world := (onChange (Refresh c) w).2 w.

(** What [useSelector] returns to the rendering component. *)
Definition selected (c : nat) (w : world) : option value := current <$> hooks w !! c.

(** *** Events from outside *)

Inductive event :=
| SetState (v : value)
| OnChange (l : listener)
| Unsubscribe (l : listener)
| Render (c : nat) (sel : value → value) (eq : value → value → bool)
| Effect (c : nat)
| Cleanup (c : nat)
| Call (key : string)
| Settle (id : nat) (o : outcome).

(** One step of the environment: a client call on the repository, a
    React render, effect or cleanup of a [useSelector] instance, a call of
    a store-bound action, or the settling of the promise a suspended
    store-bound call awaits.  [Call] of a key the store does not have and
    [Settle] of a call that is not suspended cannot happen.  A [Settle]
    also gives how the store-bound call's own promise settles. *)
Definition step (acts : gmap string (async_fn world)) (e : event) (w : world)
    : option (world * option outcome) :=
  match e with
  | SetState v => Some (setState v w, None)
  | OnChange l => Some ((onChange l w).1, None)
  | Unsubscribe l => Some (unsubscribe l w, None)
  | Render c sel eq => Some (render c sel eq w, None)
  | Effect c => Some (effect c w, None)
  | Cleanup c => Some (cleanup c w, None)
  | Call key =>
    f ← acts !! key;
    let w := enter f w in
    let id := next w in
    Some (set_next (S id) (set_frames (<[id := key]> (frames w)) w), None)
  | Settle id o =>
    key ← frames w !! id;
    f ← acts !! key;
    let '(w, r) := resume f o (set_frames (delete id (frames w)) w) in
    Some (w, Some r)
  end.

(** Running a sequence of events; the results handed back are dropped. *)
Fixpoint run (acts : gmap string (async_fn world)) (es : list event) (w : world)
    : option world :=
  match es with
  | [] => Some w
  | e :: es => wr ← step acts e w; run acts es wr.1
  end.

(** The pairs [(vi, v(i-1))] of a sequence of states starting at [v0]. *)
Definition transitions (v0 : value) (vs : list value) : list (value * value) :=
  zip vs (v0 :: vs).

(** The arguments of the calls made to listener [l], oldest first. *)
Definition observed (l : listener) (cs : list call) : list (value * value) :=
  (λ c, (c.1.2, c.2)) <$> filter (λ c, c.1.1 = l) cs.

(** How many registrations of [l] there are. *)
Definition registrations (l : listener) (ls : list listener) : nat :=
  length (filter (λ x, x = l) ls).

(** Events that register [l], and events that register or remove it. *)
Definition registers (l : listener) (e : event) : bool :=
  match e with
  | OnChange l' => bool_decide (l' = l)
  | Effect c => bool_decide (Refresh c = l)
  | _ => false
  end.

Definition touches (l : listener) (e : event) : bool :=
  match e with
  | Unsubscribe l' => bool_decide (l' = l)
  | Cleanup c => bool_decide (Refresh c = l)
  | _ => registers l e
  end.

End Repo.

(** ** Action tracker *)

Module Tracker.

(** An underlying action, as in the store binding: an opaque function
    object whose promise the environment settles. *)
Definition Action := nat.

(** The type [PromiseState]: "pending", "resolved" and "rejected". *)
Inductive PromiseState := pending | resolved | rejected.

#[global] Instance PromiseState_eq_dec : EqDecision PromiseState.
Proof. solve_decision. Defined.

(** A counter as stored in an [ActionsState] object: an integer, or [NaN]
    as [undefined + 1] gives.  Counters stay far below the bound up to
    which a double is exact, which is not represented. *)
Inductive num :=
| Int (z : Z)
| NaN.

#[global] Instance num_eq_dec : EqDecision num.
Proof. solve_decision. Defined.

(** What crosses the module's boundary, oldest first: the client's
    [onChange(key, state)] of [wrapActions] being called, an underlying
    action being called, the promise of a wrapped call settling, and the
    client's [onChange(newState)] of [trackActions] being called with the
    object at [a], whose fields at that moment are [content]. *)
Inductive obs :=
| Changed (key : string) (state : PromiseState)
| Started (action : Action)
| Settled (id : nat) (o : outcome)
| Snapshot (a : addr) (content : gmap string num).

#[global] Instance obs_eq_dec : EqDecision obs.
Proof. solve_decision. Defined.

Record world := World {
  heap : gmap addr (gmap string num);   (* the ActionsState objects *)
  brk : addr;                           (* next free object address *)
  promiseState : addr;                  (* the variable promiseState of trackActions *)
  isSubscribed : gmap string bool;      (* the variable isSubscribed of each wrapAction call *)
  frames : gmap nat string;             (* wrapped calls suspended at their await, and their key *)
  next : nat;                           (* id of the next wrapped call *)
  trace : list obs
}.

Definition set_heap h w :=
  World h (brk w) (promiseState w) (isSubscribed w) (frames w) (next w) (trace w).
Definition set_brk b w :=
  World (heap w) b (promiseState w) (isSubscribed w) (frames w) (next w) (trace w).
Definition set_promiseState p w :=
  World (heap w) (brk w) p (isSubscribed w) (frames w) (next w) (trace w).
Definition set_isSubscribed s w :=
  World (heap w) (brk w) (promiseState w) s (frames w) (next w) (trace w).
Definition set_frames f w :=
  World (heap w) (brk w) (promiseState w) (isSubscribed w) f (next w) (trace w).
Definition set_next n w :=
  World (heap w) (brk w) (promiseState w) (isSubscribed w) (frames w) n (trace w).
Definition log (o : obs) w :=
  World (heap w) (brk w) (promiseState w) (isSubscribed w) (frames w) (next w) (trace w ++ [o]).

Definition empty_world : world := World ∅ 0%nat 0%nat ∅ ∅ 0%nat [].

(** *** Objects *)

(** A new object with the given fields. *)
Definition alloc (fields : gmap string num) (w : world) : addr * world :=
  let a := brk w in
  (a, set_brk (S a) (set_heap (<[a := fields]> (heap w)) w)).

Definition fields_of (a : addr) (w : world) : gmap string num :=
  default ∅ (heap w !! a).

(** [o[name]] read as a number: a missing field is [undefined], hence
    [NaN]. *)
Definition get_number (a : addr) (name : string) (w : world) : num :=
  default NaN (fields_of a w !! name).

Definition put (a : addr) (name : string) (n : num) (w : world) : world :=
  set_heap (<[a := <[name := n]> (fields_of a w)]> (heap w)) w.

Definition add (n : num) (d : Z) : num :=
  match n with
  | Int z => Int (z + d)%Z
  | NaN => NaN
  end.

(** [o[name]++] and [o[name]--]. *)
Definition increment (a : addr) (name : string) (w : world) : world :=
  put a name (add (get_number a name w) 1) w.
Definition decrement (a : addr) (name : string) (w : world) : world :=
  put a name (add (get_number a name w) (-1)) w.

(** *** wrapAction *)

Record wrapped := Wrapped {
  action : async_fn world;
  unsubscribe : world → world
}.

(** The closures of one [wrapAction] call, whose variable [isSubscribed]
    is the one named [cell]. *)
Definition unsubscribe_cell (cell : string) (w : world) : world :=
  set_isSubscribed (<[cell := false]> (isSubscribed w)) w.

Definition emitChange (cell : string) (onChange : PromiseState → world → world)
    (state : PromiseState) (w : world) : world :=
  if decide (isSubscribed w !! cell = Some true) then onChange state w else w.

Definition impl (cell : string) (action : Action)
    (onChange : PromiseState → world → world) : async_fn world :=
  {| enter := λ w,
       let w := emitChange cell onChange pending w in
       log (Started action) w;                        (* action(...args) *)
     resume := λ o w,
       match o with
       | Fulfilled response => (emitChange cell onChange resolved w, Fulfilled response)
       | Rejected error => (emitChange cell onChange rejected w, Rejected error)
       end |}.

Definition wrapAction (cell : string) (action : Action)
    (onChange : PromiseState → world → world) (w : world) : wrapped * world :=
  let w := set_isSubscribed (<[cell := true]> (isSubscribed w)) w in
  (Wrapped (impl cell action onChange) (unsubscribe_cell cell), w).

(** *** wrapActions *)

(** The [map] over the entries, keeping the whole result of each
    [wrapAction] call. *)
Definition wrapEntries (entries : list (string * Action))
    (onChange : string → PromiseState → world → world) (w : world)
    : list (string * wrapped) * world :=
  fold_left (λ '(acc, w) '(key, value),
      let handleChange := λ key state, onChange key state in
      let '(r, w) := wrapAction key value (λ state, handleChange key state) w in
      (acc ++ [(key, r)], w))
    entries ([], w).

(** What the fold of [wrapEntries] amounts to: the closures built for one
    entry, and the [isSubscribed] variables once every entry is done. *)
Definition closures (onChange : string → PromiseState → world → world)
    (kv : string * Action) : string * wrapped :=
  (kv.1, Wrapped (impl kv.1 kv.2 (λ state, onChange kv.1 state)) (unsubscribe_cell kv.1)).

Definition subscribe_all (l : list (string * Action)) (s : gmap string bool)
    : gmap string bool :=
  fold_left (λ s kv, <[kv.1 := true]> s) l s.

(** [wrapActions] keeps the [action] of each result only. *)
Definition wrapActions (actions : gmap string Action)
    (onChange : string → PromiseState → world → world) (w : world)
    : gmap string (async_fn world) * world :=
  let '(rs, w) := wrapEntries (entries actions) onChange w in
  (fromEntries ((λ kr, (kr.1, action kr.2)) <$> rs), w).

(** The results of the [wrapAction] calls by key, [unsubscribe] included. *)
Definition wrappers (actions : gmap string Action)
    (onChange : string → PromiseState → world → world) (w : world)
    : gmap string wrapped :=
  fromEntries (wrapEntries (entries actions) onChange w).1.

(** A client [onChange(key, state)] callback. *)
Definition notify (key : string) (state : PromiseState) (w : world) : world :=
  log (Changed key state) w.

(** *** trackActions *)

(** The [handleChange] closure of [trackActions]; the client's
    [onChange(newState)] is an observer. *)
Definition handleChange (name : string) (state : PromiseState) (w : world) : world :=
  let '(newState, w) := alloc (fields_of (promiseState w) w) w in
  let w :=
    match state with
    | pending => increment newState name w
    | rejected => decrement newState name w
    | resolved => decrement newState name w
    end in
  let w := set_promiseState newState w in
  log (Snapshot newState (fields_of newState w)) w.

Arguments handleChange : simpl never.

Record tracked := Tracked {
  wrappedActions : gmap string (async_fn world);
  initialState : addr
}.

Definition trackActions (actions : gmap string Action) (w : world) : tracked * world :=
  let '(o, w) := alloc (fromEntries ((λ key, (key, Int 0)) <$> keys actions)) w in
  let w := set_promiseState o w in
  let '(wrappedActions, w) := wrapActions actions handleChange w in
  (Tracked wrappedActions (promiseState w), w).

(** *** Events from outside *)

Inductive event :=
| Call (key : string)
| Settle (id : nat) (o : outcome).

(** A wrapped action is called, or the promise a suspended wrapped call
    awaits settles.  [Call] of a key that is not there and [Settle] of a
    call that is not suspended cannot happen. *)
Definition step (wa : gmap string (async_fn world)) (e : event) (w : world)
    : option world :=
  match e with
  | Call key =>
    f ← wa !! key;
    let w := enter f w in
    let id := next w in
    Some (set_next (S id) (set_frames (<[id := key]> (frames w)) w))
  | Settle id o =>
    key ← frames w !! id;
    f ← wa !! key;
    let '(w, r) := resume f o (set_frames (delete id (frames w)) w) in
    Some (log (Settled id r) w)
  end.

Fixpoint run (wa : gmap string (async_fn world)) (es : list event) (w : world)
    : option world :=
  match es with
  | [] => Some w
  | e :: es => w ← step wa e w; run wa es w
  end.

(** The same with the [unsubscribe] of each [wrapAction] result in reach. *)
Inductive wevent :=
| Ev (e : event)
| Unsubscribe (key : string).

Definition wstep (ws : gmap string wrapped) (e : wevent) (w : world) : option world :=
  match e with
  | Ev e => step (action <$> ws) e w
  | Unsubscribe key => r ← ws !! key; Some (unsubscribe r w)
  end.

Fixpoint wrun (ws : gmap string wrapped) (es : list wevent) (w : world) : option world :=
  match es with
  | [] => Some w
  | e :: es => w ← wstep ws e w; wrun ws es w
  end.

(** Suspended calls of one action, and its counter in the current
    [promiseState]. *)
Definition suspended (key : string) (fs : gmap nat string) : nat :=
  size (filter (λ kv, kv.2 = key) fs).

Definition inflight (key : string) (w : world) : nat := suspended key (frames w).

Definition counter (key : string) (w : world) : option num :=
  fields_of (promiseState w) w !! key.

(** The objects handed to the client's [onChange(newState)], oldest
    first, each with the fields it had when handed over. *)
Definition snapshots (tr : list obs) : list (addr * gmap string num) :=
  omap (λ o, match o with Snapshot a content => Some (a, content) | _ => None end) tr.

(** The change one phase event makes to its counter. *)
Definition delta (state : PromiseState) : Z :=
  match state with
  | pending => 1
  | resolved | rejected => -1
  end.

(** Counting from the events alone.  The [i]-th [Call] of a run gets id
    [i]; [called es] lists the keys of the calls of [es] by id. *)
Definition called (es : list event) : list string :=
  omap (λ e, match e with Call key => Some key | Settle _ _ => None end) es.

(** Calls of the action [key] in [es]. *)
Definition invocations (key : string) (es : list event) : nat :=
  length (filter (λ k, k = key) (called es)).

(** [e] settles a call of the action [key], given the keys by id. *)
Definition settles (key : string) (by_id : list string) (e : event) : bool :=
  match e with
  | Call _ => false
  | Settle id _ => bool_decide (by_id !! id = Some key)
  end.

(** Calls of the action [key] that have settled in [es]. *)
Definition settlements (key : string) (es : list event) : nat :=
  length (filter (λ e, settles key (called es) e = true) es).

(** What links a world of the tracker to the events that led to it. *)
Definition accounted (es : list event) (w : world) : Prop :=
  next w = length (called es) ∧
  (∀ id k, frames w !! id = Some k → called es !! id = Some k) ∧
  (∀ id o, Settle id o ∈ es → (id < length (called es))%nat) ∧
  ∀ key, (inflight key w + settlements key es = invocations key es)%nat.

(** The phase in which a settlement is reported. *)
Definition phase_of (o : outcome) : PromiseState :=
  match o with
  | Fulfilled _ => resolved
  | Rejected _ => rejected
  end.

(** The world right after [trackActions], and what holds of every world
    the tracker of [actions] can be in afterwards. *)
Definition tracker (actions : gmap string Action) : tracked * world :=
  trackActions actions empty_world.

Record invariant (actions : gmap string Action) (w : world) : Prop := Invariant {
  inv_counters : ∀ key,
    counter key w = (λ _, Int (Z.of_nat (inflight key w))) <$> actions !! key;
  inv_frames : ∀ id key,
    frames w !! id = Some key → is_Some (actions !! key) ∧ (id < next w)%nat;
  inv_subscribed : ∀ key, is_Some (actions !! key) → isSubscribed w !! key = Some true;
  inv_brk : brk w = S (promiseState w);
  inv_heap : ∀ a, (brk w ≤ a)%nat → heap w !! a = None;
  inv_initial : heap w !! 0%nat = Some ((λ _, Int 0) <$> actions);
  inv_addrs : (snapshots (trace w)).*1 = seq 1 (promiseState w);
  inv_snapshots : ∀ a content,
    (a, content) ∈ snapshots (trace w) →
    heap w !! a = Some content ∧ dom content = dom actions
}.

End Tracker.

(** ** Runs of the repository *)

Module RepoRuns.
Import Repo.

(** The value an event hands to [setState], if it does: a direct call, or
    a store-bound call whose underlying action resolved. *)
Definition applies (e : event) : option value :=
  match e with
  | SetState v => Some v
  | Settle _ (Fulfilled v) => Some v
  | _ => None
  end.

Definition applied (es : list event) : list value := omap applies es.

(** [n] times [onChange(l)], and [n] calls of a returned closure. *)
Definition subscribe_times (n : nat) (l : listener) (w : world) : world :=
  Nat.iter n (λ w, (onChange l w).1) w.

Definition unsubscribe_times (n : nat) (l : listener) (w : world) : world :=
  Nat.iter n (unsubscribe l) w.

End RepoRuns.

(** ** useDispatcher *)

Module Dispatcher.
Import Tracker.

(** What a [useDispatcher] instance holds: the ref [actionsState.current]
    and how often [forceRender] was called. *)
Record hook := Hook {
  actionsState : addr;
  renders : nat
}.

(** The [handleChange] of the [useMemo] callback. *)
Definition handleChange (nextState : addr) (h : hook) : hook :=
  Hook nextState (S (renders h)).

(** The [useMemo] callback at the first render: [trackActions] with
    [handleChange], then [actionsState.current = initialState].  The hook
    returns the ref's object and the wrapped actions. *)
Definition useDispatcher (actions : gmap string Action)
    : hook * gmap string (async_fn world) * world :=
  let '(t, w) := trackActions actions empty_world in
  (Hook (initialState t) 0, wrappedActions t, w).

(** The tracker's callback is an observer in [Tracker]; the instance is
    what [handleChange] makes of the calls recorded, oldest first. *)
Definition replay (tr : list obs) (h : hook) : hook :=
  fold_left (λ h o, match o with Snapshot a _ => handleChange a h | _ => h end) tr h.

(** The instance in world [w], and the field the component reads from the
    object it is given, [actionState[key]]. *)
Definition instance (actions : gmap string Action) (w : world) : hook :=
  replay (trace w) (useDispatcher actions).1.1.

Definition actionState (actions : gmap string Action) (key : string) (w : world)
    : option num :=
  fields_of (actionsState (instance actions w)) w !! key.

End Dispatcher.

(** ** The counter store of [index.tsx] *)

Module Counter.

(** [CounterState]; its objects live in a heap, [repository.state] refers
    to one of them.  The two numbers are integers, without the bound up
    to which a double is exact. *)
Record CounterState := State {
  value : Z;
  version : Z
}.

#[global] Instance CounterState_eq_dec : EqDecision CounterState.
Proof. solve_decision. Defined.

(** A call of one of the three actions; [None] is a call without the
    argument, for which [count] is 1. *)
Inductive action :=
| Increment (count : option Z)
| Decrement (count : option Z)
| Reset.

Definition name (a : action) : string :=
  match a with
  | Increment _ => "increment"
  | Decrement _ => "decrement"
  | Reset => "reset"
  end.

(** The object [createCounterActions] returns, by function object. *)
Definition counterActions : gmap string Repo.Action :=
  {[ "increment" := 0%nat; "decrement" := 1%nat; "reset" := 2%nat ]}.

(** The promise of a call of an underlying action: still awaiting
    [waitFor(2000)], or fulfilled with the object at [result]. *)
Inductive task :=
| Waiting (count : Z)
| Returned (result : addr).

Record world := World {
  repo : Repo.world;
  objects : gmap addr CounterState;
  brk : addr;
  tasks : gmap nat task
}.

Definition set_repo r w := World r (objects w) (brk w) (tasks w).
Definition set_tasks ts w := World (repo w) (objects w) (brk w) ts.

(** A new object literal. *)
Definition alloc (s : CounterState) (w : world) : addr * world :=
  (brk w, World (repo w) (<[brk w := s]> (objects w)) (S (brk w)) (tasks w)).

(** [const { state } = repository]: the object [repository.state] refers
    to. *)
Definition read (w : world) : option CounterState :=
  match Repo.state (repo w) with
  | VObj a => objects w !! a
  | _ => None
  end.

(** The object literals the three actions return. *)
Definition incremented (count : Z) (s : CounterState) : CounterState :=
  State (value s + count) (version s + 1).
Definition decremented (count : Z) (s : CounterState) : CounterState :=
  State (value s - count) (version s + 1).
Definition reset_of (s : CounterState) : CounterState :=
  State 0 (version s + 1).

(** The actions of the store, and [createCounterStore]. *)
Definition bound : gmap string (async_fn Repo.world) :=
  Repo.actions (Repo.createStore (Repo.createRepository (VObj 0)) counterActions).

Definition createCounterStore : world :=
  World (Repo.repository (Repo.createStore (Repo.createRepository (VObj 0)) counterActions))
    {[ 0%nat := State 0 0 ]} 1 ∅.

(** What can happen: a store-bound action is called; the timer of a
    waiting [increment] fires; the store-bound call whose underlying
    promise is fulfilled resumes; [useSelector(store.repository, s => s)]
    of a component renders first, runs its effect, or its cleanup. *)
Inductive event :=
| Invoke (a : action)
| Timeout (id : nat)
| Resume (id : nat)
| Render (c : nat)
| Effect (c : nat)
| Cleanup (c : nat).

(** The body of an underlying action from where it reads the state. *)
Definition returns (result : CounterState → CounterState) (id : nat) (w : world)
    : option world :=
  s ← read w;
  let '(o, w) := alloc (result s) w in
  Some (set_tasks (<[id := Returned o]> (tasks w)) w).

Definition ui (e : Repo.event) (w : world) : option world :=
  r ← Repo.step bound e (repo w); Some (set_repo r.1 w).

Definition step (e : event) (w : world) : option world :=
  match e with
  | Invoke a =>
    let id := Repo.next (repo w) in
    w ← ui (Repo.Call (name a)) w;
    match a with
    | Increment count =>
      Some (set_tasks (<[id := Waiting (default 1%Z count)]> (tasks w)) w)
    | Decrement count => returns (decremented (default 1%Z count)) id w
    | Reset => returns reset_of id w
    end
  | Timeout id =>
    match tasks w !! id with
    | Some (Waiting count) => returns (incremented count) id w
    | _ => None
    end
  | Resume id =>
    match tasks w !! id with
    | Some (Returned o) =>
      ui (Repo.Settle id (Fulfilled (VObj o))) (set_tasks (delete id (tasks w)) w)
    | _ => None
    end
  | Render c => ui (Repo.Render c (λ s, s) Repo.isEqualRef) w
  | Effect c => ui (Repo.Effect c) w
  | Cleanup c => ui (Repo.Cleanup c) w
  end.

Fixpoint run (es : list event) (w : world) : option world :=
  match es with
  | [] => Some w
  | e :: es => w ← step e w; run es w
  end.



(** The counter as a function of its state. *)
Definition apply (s : CounterState) (a : action) : CounterState :=
  match a with
  | Increment count => incremented (default 1%Z count) s
  | Decrement count => decremented (default 1%Z count) s
  | Reset => reset_of s
  end.

(** The repository once the store-bound action of [key] has been called
    and has suspended. *)
Definition called_repo (key : string) (r : Repo.world) : Repo.world :=
  Repo.set_next (S (Repo.next r))
    (Repo.set_frames (<[Repo.next r := key]> (Repo.frames r)) r).

(** Actions that read the state when called; [increment] reads it when
    its timer has fired. *)
Definition synchronous (a : action) : bool :=
  match a with
  | Increment _ => false
  | Decrement _ | Reset => true
  end.




(** What holds of every world of the counter store. *)
Record consistent (w : world) : Prop := Consistent {
  con_state : ∃ a, Repo.state (repo w) = VObj a ∧ (a < brk w)%nat ∧ is_Some (objects w !! a);
  con_tasks : ∀ id t, tasks w !! id = Some t →
    ∃ key, Repo.frames (repo w) !! id = Some key ∧ is_Some (counterActions !! key);
  con_results : ∀ id o, tasks w !! id = Some (Returned o) →
    (o < brk w)%nat ∧ is_Some (objects w !! o) ∧ Repo.state (repo w) ≠ VObj o;
  con_distinct : ∀ id id' o, tasks w !! id = Some (Returned o) →
    tasks w !! id' = Some (Returned o) → id = id'
}.

End Counter.

(** * Properties *)

(** ** Objects used as maps *)

Section Objects.
Context {A : Type}.

Lemma fromEntries_acc (l : list (string * A)) (acc : gmap string A) :
  fold_left (λ o kv, <[kv.1 := kv.2]> o) l acc = list_to_map (reverse l) ∪ acc.
Proof.
  revert acc. induction l as [|[k v] l IH]; intros acc; simpl.
  - by rewrite (left_id_L ∅ (∪)).
  - rewrite IH, reverse_cons, list_to_map_app. simpl.
    rewrite insert_empty, <- (assoc_L (∪)).
    by rewrite <- insert_union_singleton_l.
Qed.

Lemma fromEntries_list_to_map (l : list (string * A)) :
  NoDup l.*1 → fromEntries l = list_to_map l.
Proof.
  intros Hnd. unfold fromEntries. rewrite fromEntries_acc, (right_id_L ∅ (∪)).
  apply list_to_map_proper; [|by rewrite reverse_Permutation].
  by rewrite reverse_Permutation.
Qed.

Lemma fromEntries_lookup (l : list (string * A)) k v :
  NoDup l.*1 → fromEntries l !! k = Some v ↔ (k, v) ∈ l.
Proof.
  intros Hnd. rewrite fromEntries_list_to_map by done.
  symmetry. by apply elem_of_list_to_map.
Qed.

Lemma fromEntries_entries (o : gmap string A) : fromEntries (entries o) = o.
Proof.
  unfold entries. rewrite fromEntries_list_to_map by apply NoDup_fst_map_to_list.
  apply list_to_map_to_list.
Qed.
End Objects.

Lemma fromEntries_fmap {A B} (f : string → A → B) (o : gmap string A) k :
  fromEntries ((λ kv, (kv.1, f kv.1 kv.2)) <$> entries o) !! k = f k <$> o !! k.
Proof.
  assert (Hfst : ((λ kv : string * A, (kv.1, f kv.1 kv.2)) <$> entries o).*1 = (entries o).*1).
  { rewrite <- list_fmap_compose. by apply list_fmap_ext. }
  assert (Hnd : NoDup ((λ kv : string * A, (kv.1, f kv.1 kv.2)) <$> entries o).*1).
  { rewrite Hfst. apply NoDup_fst_map_to_list. }
  destruct (o !! k) as [a|] eqn:Hk; simpl.
  - apply fromEntries_lookup; [done|].
    apply list_elem_of_fmap. exists (k, a). split; [done|].
    by apply elem_of_map_to_list.
  - apply eq_None_not_Some. intros [b Hb].
    apply fromEntries_lookup in Hb; [|done].
    apply list_elem_of_fmap in Hb as ([k' a] & [= -> ->] & Hin).
    apply elem_of_map_to_list in Hin. simpl in *. congruence.
Qed.

(** ** The emitter *)

Section Emitter.
Import Repo.

Lemma remove_first_filter l ls :
  filter (λ x, x ≠ l) (remove_first l ls) = filter (λ x, x ≠ l) ls.
Proof.
  induction ls as [|x ls IH]; simpl; [done|].
  destruct (decide (x = l)) as [->|Hne].
  - by rewrite filter_cons_False by (intros ?; done).
  - by rewrite !filter_cons_True, IH by done.
Qed.

Lemma remove_first_absent l ls : l ∉ ls → remove_first l ls = ls.
Proof.
  induction ls as [|x ls IH]; simpl; [done|].
  intros Hnotin. apply not_elem_of_cons in Hnotin as [Hne Hnotin].
  destruct (decide (x = l)); [congruence|]. by rewrite IH.
Qed.

Lemma remove_first_registrations l ls :
  registrations l (remove_first l ls) = pred (registrations l ls).
Proof.
  unfold registrations. induction ls as [|x ls IH]; simpl; [done|].
  destruct (decide (x = l)) as [->|Hne].
  - by rewrite filter_cons_True by done.
  - rewrite !filter_cons_False by done. apply IH.
Qed.

Lemma registrations_reverse l ls : registrations l (reverse ls) = registrations l ls.
Proof. unfold registrations. by rewrite reverse_Permutation. Qed.

Lemma registrations_0 l ls : registrations l ls = 0%nat ↔ l ∉ ls.
Proof.
  unfold registrations. induction ls as [|x ls IH]; simpl.
  - split; [intros _; apply not_elem_of_nil|done].
  - rewrite not_elem_of_cons. destruct (decide (x = l)) as [->|Hne].
    + rewrite filter_cons_True by done. simpl. split; [done|]. by intros [? _].
    + rewrite filter_cons_False by done. rewrite IH. split; [done|]. by intros [_ ?].
Qed.

Lemma filter_absent (l : listener) (ls : list listener) : l ∉ ls → filter (λ x, x ≠ l) ls = ls.
Proof.
  induction ls as [|x ls IH]; [done|].
  intros Hnotin. apply not_elem_of_cons in Hnotin as [Hne Hnotin].
  rewrite filter_cons_True by done. by rewrite IH.
Qed.

Lemma registrations_other l l' : l' ≠ l → registrations l [l'] = 0%nat.
Proof. intros Hne. unfold registrations. by rewrite filter_cons_False. Qed.

Lemma registrations_app l ls1 ls2 :
  registrations l (ls1 ++ ls2) = (registrations l ls1 + registrations l ls2)%nat.
Proof. unfold registrations. by rewrite filter_app, length_app. Qed.

(** With a single registration, removing the first match or the last
    one is the same: every other entry stays, in order. *)
Lemma remove_first_single l ls :
  (registrations l ls ≤ 1)%nat → remove_first l ls = filter (λ x, x ≠ l) ls.
Proof.
  unfold registrations. induction ls as [|x ls IH]; simpl; [done|].
  destruct (decide (x = l)) as [->|Hne].
  - rewrite filter_cons_True by done. simpl. intros Hle.
    rewrite filter_cons_False by (intros ?; done).
    assert (Habs : l ∉ ls) by (apply registrations_0; unfold registrations; lia).
    by rewrite filter_absent.
  - rewrite filter_cons_False by done. intros Hle.
    by rewrite filter_cons_True, IH by done.
Qed.

Lemma off_filter l ls :
  filter (λ x, x ≠ l) (off l ls) = filter (λ x, x ≠ l) ls.
Proof.
  unfold off. rewrite filter_reverse, remove_first_filter, <- filter_reverse.
  by rewrite reverse_involutive.
Qed.

Lemma off_absent l ls : l ∉ ls → off l ls = ls.
Proof.
  intros Hnotin. unfold off. rewrite remove_first_absent, reverse_involutive; [done|].
  by rewrite elem_of_reverse.
Qed.

Lemma off_registrations l ls : registrations l (off l ls) = pred (registrations l ls).
Proof.
  unfold off. by rewrite registrations_reverse, remove_first_registrations,
    registrations_reverse.
Qed.

Lemma off_single l ls :
  (registrations l ls ≤ 1)%nat → off l ls = filter (λ x, x ≠ l) ls.
Proof.
  intros Hle. unfold off.
  rewrite remove_first_single by (by rewrite registrations_reverse).
  by rewrite filter_reverse, reverse_involutive.
Qed.

Lemma remove_first_app l xs ys :
  l ∉ xs → remove_first l (xs ++ l :: ys) = xs ++ ys.
Proof.
  induction xs as [|x xs IH]; simpl.
  - intros _. by rewrite decide_True.
  - intros [Hne Hnotin]%not_elem_of_cons.
    rewrite decide_False by congruence. by rewrite IH.
Qed.

(** The registration removed is the last one of [l]. *)
Lemma off_last l ls1 ls2 : l ∉ ls2 → off l (ls1 ++ l :: ls2) = ls1 ++ ls2.
Proof.
  intros Hnotin. unfold off.
  rewrite reverse_app, reverse_cons, <- app_assoc. simpl.
  rewrite remove_first_app by (by rewrite elem_of_reverse).
  by rewrite reverse_app, !reverse_involutive.
Qed.

Lemma off_on l ls : off l (on l ls) = ls.
Proof.
  unfold off, on. rewrite reverse_app. simpl.
  destruct (decide (l = l)); [|done]. apply reverse_involutive.
Qed.

Lemma off_other l l' ls : l' ≠ l → registrations l' (off l ls) = registrations l' ls.
Proof.
  intros Hne. unfold registrations.
  assert (Hsub : ∀ xs : list listener, filter (λ x, x = l') xs
                       = filter (λ x, x = l') (filter (λ x, x ≠ l) xs)).
  { intros xs. induction xs as [|x xs IH]; [done|].
    destruct (decide (x = l)) as [->|Hx].
    - rewrite (filter_cons_False (λ x, x ≠ l)) by (intros ?; done).
      rewrite filter_cons_False by congruence. done.
    - rewrite (filter_cons_True (λ x, x ≠ l)) by done.
      destruct (decide (x = l')) as [->|Hx'].
      + rewrite !filter_cons_True by done. by rewrite IH.
      + rewrite !filter_cons_False by done. done. }
  by rewrite (Hsub (off l ls)), off_filter, <- Hsub.
Qed.

Lemma off_keeps_absent l l' ls :
  registrations l ls = 0%nat → registrations l (off l' ls) = 0%nat.
Proof.
  intros H0. destruct (decide (l' = l)) as [->|Hne].
  - rewrite off_registrations. lia.
  - rewrite <- H0. by apply off_other.
Qed.
End Emitter.

(** ** Repository *)

Section Repository.
Import Repo.

Lemma refresh_frame c w :
  state (refresh c w) = state w ∧ listeners (refresh c w) = listeners w ∧
  frames (refresh c w) = frames w ∧ next (refresh c w) = next w ∧
  calls (refresh c w) = calls w.
Proof.
  unfold refresh. destruct (hooks w !! c) as [h|]; [|done].
  by destruct (negb _).
Qed.

Lemma invoke_listener_frame a b w l :
  state (invoke_listener a b w l) = state w ∧
  listeners (invoke_listener a b w l) = listeners w ∧
  frames (invoke_listener a b w l) = frames w ∧
  next (invoke_listener a b w l) = next w ∧
  calls (invoke_listener a b w l) = calls w ++ [(l, a, b)].
Proof.
  unfold invoke_listener. destruct l as [f|c]; [done|].
  destruct (refresh_frame c (log_call (Refresh c, a, b) w)) as (-> & -> & -> & -> & ->).
  done.
Qed.

Lemma notify_all a b ls w :
  let w' := fold_left (invoke_listener a b) ls w in
  state w' = state w ∧ listeners w' = listeners w ∧ frames w' = frames w ∧
  next w' = next w ∧ calls w' = calls w ++ ((λ l, (l, a, b)) <$> ls).
Proof.
  revert w. induction ls as [|l ls IH]; intros w; simpl.
  - by rewrite app_nil_r.
  - destruct (IH (invoke_listener a b w l)) as (-> & -> & -> & -> & ->).
    destruct (invoke_listener_frame a b w l) as (-> & -> & -> & -> & ->).
    by rewrite <- app_assoc.
Qed.

Lemma setState_spec v w :
  state (setState v w) = v ∧ listeners (setState v w) = listeners w ∧
  frames (setState v w) = frames w ∧ next (setState v w) = next w ∧
  calls (setState v w) = calls w ++ ((λ l, (l, v, state w)) <$> listeners w).
Proof.
  unfold setState, emit.
  destruct (notify_all v (state w) (listeners (set_state v w)) (set_state v w))
    as (-> & -> & -> & -> & ->).
  done.
Qed.

Lemma observed_app l cs1 cs2 : observed l (cs1 ++ cs2) = observed l cs1 ++ observed l cs2.
Proof. unfold observed. by rewrite filter_app, fmap_app. Qed.

Lemma observed_round l a b ls :
  observed l ((λ l', (l', a, b)) <$> ls) = replicate (registrations l ls) (a, b).
Proof.
  unfold observed, registrations. induction ls as [|x ls IH]; [done|].
  rewrite fmap_cons. destruct (decide (x = l)) as [->|Hne].
  - rewrite !filter_cons_True by done. rewrite fmap_cons. simpl. f_equal. exact IH.
  - rewrite !filter_cons_False by done. apply IH.
Qed.

Lemma setState_observed l v w :
  observed l (calls (setState v w))
  = observed l (calls w) ++ replicate (registrations l (listeners w)) (v, state w).
Proof.
  destruct (setState_spec v w) as (_ & _ & _ & _ & ->).
  by rewrite observed_app, observed_round.
Qed.

(** A sequence of [setState] calls. *)
Lemma setState_sequence vs w :
  let w' := foldl (λ w v, setState v w) w vs in
  state w' = default (state w) (last vs) ∧
  listeners w' = listeners w ∧
  calls w' = calls w ++
    flat_map (λ t, (λ l, (l, t.1, t.2)) <$> listeners w) (transitions (state w) vs) ∧
  ∀ l, observed l (calls w')
       = observed l (calls w) ++
         flat_map (replicate (registrations l (listeners w))) (transitions (state w) vs).
Proof.
  revert w. induction vs as [|v vs IH]; intros w; simpl.
  - unfold transitions. simpl. rewrite !app_nil_r. repeat split.
    intros l. by rewrite app_nil_r.
  - destruct (IH (setState v w)) as (Hst & Hls & Hcalls & Hobs).
    destruct (setState_spec v w) as (Hst1 & Hls1 & _ & _ & Hcalls1).
    rewrite Hst1, Hls1 in *. repeat split.
    + rewrite Hst, last_cons. by destruct (last vs).
    + done.
    + rewrite Hcalls, Hcalls1. unfold transitions. simpl. by rewrite <- app_assoc.
    + intros l. rewrite Hobs, setState_observed.
      unfold transitions. simpl. by rewrite <- app_assoc.
Qed.

Lemma flat_map_replicate_1 {A} (l : list A) : flat_map (replicate 1) l = l.
Proof. induction l as [|x l IH]; simpl; [done|]. f_equal. exact IH. Qed.
End Repository.

(** ** Store binding and the events of the repository *)

Section Store.
Import Repo.
Variable actions : gmap string Action.

Lemma storifyActions_lookup key :
  storifyActions actions !! key = storifyAction <$> actions !! key.
Proof. unfold storifyActions. apply (fromEntries_fmap (λ _, storifyAction)). Qed.

(** What a step does to the registrations of [l] and to the calls made
    to it. *)
Lemma step_listener e w w' r l :
  step (storifyActions actions) e w = Some (w', r) →
  (registers l e = false → registrations l (listeners w) = 0%nat →
     registrations l (listeners w') = 0%nat) ∧
  (touches l e = false → registrations l (listeners w') = registrations l (listeners w)) ∧
  (registrations l (listeners w) = 0%nat → observed l (calls w') = observed l (calls w)).
Proof.
  destruct e as [v|l'|l'|c sel eq|c|c|key|id o]; simpl.
  - intros [= <- <-].
    destruct (setState_spec v w) as (_ & Hls & _ & _ & _).
    rewrite setState_observed, Hls. repeat split; try done.
    intros ->. by rewrite app_nil_r.
  - intros [= <- <-]. simpl. unfold on. rewrite registrations_app.
    repeat split; try done; intros Hne%bool_decide_eq_false.
    + intros ->. by rewrite registrations_other.
    + rewrite registrations_other by done. lia.
  - intros [= <- <-]. simpl. repeat split; try done.
    + intros _ H0. by apply off_keeps_absent.
    + intros Hne%bool_decide_eq_false. by apply off_other.
  - intros [= <- <-]. unfold render. by destruct (hooks w !! c).
  - intros [= <- <-]. simpl. unfold on. rewrite registrations_app.
    repeat split; try done; intros Hne%bool_decide_eq_false.
    + intros ->. by rewrite registrations_other.
    + rewrite registrations_other by done. lia.
  - intros [= <- <-]. simpl. repeat split; try done.
    + intros _ H0. by apply off_keeps_absent.
    + intros Hne%bool_decide_eq_false. by apply off_other.
  - rewrite storifyActions_lookup.
    destruct (actions !! key) as [a|]; simpl; [|done]. by intros [= <- <-].
  - destruct (frames w !! id) as [key|]; simpl; [|done].
    rewrite storifyActions_lookup.
    destruct (actions !! key) as [a|]; simpl; [|done].
    destruct o as [v|err]; intros [= <- <-]; [|done].
    destruct (setState_spec v (set_frames (delete id (frames w)) w)) as (_ & Hls & _ & _ & _).
    rewrite setState_observed, Hls. simpl. repeat split; try done.
    intros ->. by rewrite app_nil_r.
Qed.

Lemma run_untouched es w w' l :
  run (storifyActions actions) es w = Some w' →
  forallb (λ e, negb (touches l e)) es = true →
  registrations l (listeners w') = registrations l (listeners w).
Proof.
  revert w. induction es as [|e es IH]; intros w; simpl.
  - by intros [= ->].
  - destruct (step (storifyActions actions) e w) as [[w1 r]|] eqn:Hstep; simpl; [|done].
    intros Hrun [He Hes]%andb_prop. apply negb_true_iff in He.
    rewrite (IH _ Hrun Hes). by apply (step_listener _ _ _ _ l Hstep).
Qed.

Lemma run_unobserved es w w' l :
  run (storifyActions actions) es w = Some w' →
  forallb (λ e, negb (registers l e)) es = true →
  registrations l (listeners w) = 0%nat →
  observed l (calls w') = observed l (calls w).
Proof.
  revert w. induction es as [|e es IH]; intros w; simpl.
  - by intros [= ->].
  - destruct (step (storifyActions actions) e w) as [[w1 r]|] eqn:Hstep; simpl; [|done].
    intros Hrun [He Hes]%andb_prop H0. apply negb_true_iff in He.
    destruct (step_listener _ _ _ _ l Hstep) as (Hkeep & _ & Hobs).
    rewrite (IH _ Hrun Hes) by auto. auto.
Qed.
End Store.

(** ** Selector binding *)

Section Selector.
Import Repo.

Lemma registrations_single_split l ls :
  registrations l ls = 1%nat → ∃ ls1 ls2, ls = ls1 ++ (l :: ls2) ∧ (l ∉ ls1) ∧ (l ∉ ls2).
Proof.
  unfold registrations. induction ls as [|x ls IH]; simpl; [done|].
  destruct (decide (x = l)) as [->|Hne].
  - rewrite filter_cons_True by done. simpl. intros [= H0].
    exists [], ls. split; [done|]. split; [apply not_elem_of_nil|].
    by apply registrations_0.
  - rewrite filter_cons_False by done. intros H1.
    destruct (IH H1) as (ls1 & ls2 & -> & Hn1 & Hn2).
    exists (x :: ls1), ls2. split; [done|]. split; [|done].
    apply not_elem_of_cons. split; [congruence|done].
Qed.

Lemma invoke_listener_hook_other a b w l c :
  l ≠ Refresh c → hooks (invoke_listener a b w l) !! c = hooks w !! c.
Proof.
  intros Hne. destruct l as [f|c']; [done|]. simpl.
  unfold refresh. simpl. destruct (hooks w !! c') as [h|]; [|done].
  destruct (negb _); [|done]. simpl.
  apply lookup_insert_ne. congruence.
Qed.

Lemma notify_others_hook a b ls w c :
  Refresh c ∉ ls → hooks (fold_left (invoke_listener a b) ls w) !! c = hooks w !! c.
Proof.
  revert w. induction ls as [|l ls IH]; intros w; simpl; [done|].
  intros [Hne Hnotin]%not_elem_of_cons.
  rewrite IH by done. apply invoke_listener_hook_other. congruence.
Qed.

Lemma refresh_hook c w h :
  hooks w !! c = Some h →
  hooks (refresh c w) !! c =
    Some (if equalityFn h (selector h (state w)) (current h) then h
          else Hook (selector h) (equalityFn h) (selector h (state w)) (S (renders h))).
Proof.
  intros Hh. unfold refresh. rewrite Hh.
  destruct (equalityFn h _ _); simpl; [done|]. apply lookup_insert_eq.
Qed.

(** One [setState] seen from a mounted [useSelector] instance, for any
    equality function. *)
Lemma setState_hook w c h v :
  hooks w !! c = Some h →
  registrations (Refresh c) (listeners w) = 1%nat →
  hooks (setState v w) !! c =
    Some (if equalityFn h (selector h v) (current h) then h
          else Hook (selector h) (equalityFn h) (selector h v) (S (renders h))).
Proof.
  intros Hh (ls1 & ls2 & Hls & Hn1 & Hn2)%registrations_single_split.
  unfold setState, emit. simpl. rewrite Hls, fold_left_app. simpl.
  rewrite notify_others_hook by done.
  set (w1 := fold_left _ ls1 _).
  assert (Hw1 : hooks w1 !! c = Some h ∧ state w1 = v).
  { subst w1. rewrite notify_others_hook by done.
    by destruct (notify_all v (state w) ls1 (set_state v w)) as (-> & _). }
  destruct Hw1 as [Hh1 Hst1].
  rewrite (refresh_hook c (log_call (Refresh c, v, state w) w1) h) by done.
  simpl. by rewrite Hst1.
Qed.

(** After its first render and its effect, an instance has one
    registration. *)
Lemma mount_registered c sel eq w :
  hooks w !! c = None → Refresh c ∉ listeners w →
  let w' := effect c (render c sel eq w) in
  hooks w' !! c = Some (Hook sel eq (sel (state w)) 0) ∧
  registrations (Refresh c) (listeners w') = 1%nat.
Proof.
  intros Hnone Hfresh. unfold effect, render. rewrite Hnone. simpl. split.
  - apply lookup_insert_eq.
  - unfold on. rewrite registrations_app.
    apply registrations_0 in Hfresh as ->. unfold registrations.
    by rewrite filter_cons_True.
Qed.
End Selector.

(** ** Claims on the repository, the store binding and the selector binding *)

Section RepositoryClaims.
Import Repo.

(** Claim C1.  Each [setState] call stores its argument in
    [repository.state] and then calls every registration, in registration
    order, once with the new and the previous value, whatever the two
    values are.  Over a sequence [v1 .. vn] of calls from state [v0] the
    calls made are those rounds one after the other; a listener sees each
    pair [(vi, v(i-1))] once per registration it has, so with one
    registration exactly the [n] pairs in order. *)
Theorem C1_setState_notifies (w : world) (vs : list value) :
  (∀ v0, state (createRepository v0) = v0 ∧ listeners (createRepository v0) = [] ∧
         calls (createRepository v0) = []) ∧
  (∀ v, state (setState v w) = v ∧
        listeners (setState v w) = listeners w ∧
        calls (setState v w) = calls w ++ ((λ l, (l, v, state w)) <$> listeners w)) ∧
  let w' := foldl (λ w v, setState v w) w vs in
  calls w' = calls w ++
    flat_map (λ t, (λ l, (l, t.1, t.2)) <$> listeners w) (transitions (state w) vs) ∧
  (∀ l, observed l (calls w')
        = observed l (calls w) ++
          flat_map (replicate (registrations l (listeners w))) (transitions (state w) vs)) ∧
  ∀ l, registrations l (listeners w) = 1%nat →
    observed l (calls w') = observed l (calls w) ++ transitions (state w) vs ∧
    length (observed l (calls w')) = (length (observed l (calls w)) + length vs)%nat.
Proof.
  split; [done|]. split.
  - intros v. destruct (setState_spec v w) as (? & ? & _ & _ & ?). done.
  - destruct (setState_sequence vs w) as (_ & _ & Hcalls & Hobs).
    split; [done|]. split; [done|].
    intros l Hl. rewrite (Hobs l), Hl, flat_map_replicate_1. split; [done|].
    rewrite length_app. unfold transitions.
    rewrite length_zip_with. simpl. lia.
Qed.

(** Claim C4.  A store-bound action that is called suspends without
    touching the repository.  When the underlying action resolves to
    [result], the resumed call makes one [setState result] (one round of
    listener calls) and its own promise is fulfilled with [undefined];
    when the underlying action fails, state, listeners, hooks and calls
    are as before and the promise is rejected with the same error. *)
Theorem C4_store_bound_action (repo : world) (acts : gmap string Action)
    (w : world) (key : string) (id : nat) (o : outcome) :
  is_Some (acts !! key) →
  let bound := actions (createStore repo acts) in
  (∃ w', step bound (Call key) w = Some (w', None) ∧
         frames w' = <[next w := key]> (frames w) ∧
         state w' = state w ∧ listeners w' = listeners w ∧
         hooks w' = hooks w ∧ calls w' = calls w) ∧
  (frames w !! id = Some key →
   ∃ w' r, step bound (Settle id o) w = Some (w', Some r) ∧
     frames w' = delete id (frames w) ∧
     match o with
     | Fulfilled result =>
       w' = setState result (set_frames (delete id (frames w)) w) ∧
       state w' = result ∧
       calls w' = calls w ++ ((λ l, (l, result, state w)) <$> listeners w) ∧
       r = Fulfilled VUndefined
     | Rejected error =>
       state w' = state w ∧ listeners w' = listeners w ∧
       hooks w' = hooks w ∧ calls w' = calls w ∧
       r = Rejected error
     end).
Proof.
  intros [a Ha]. simpl. split.
  - rewrite storifyActions_lookup, Ha. simpl. eexists. split; [done|]. done.
  - intros Hframe. rewrite Hframe. simpl. rewrite storifyActions_lookup, Ha. simpl.
    destruct o as [result|error].
    + eexists _, _. split; [done|].
      destruct (setState_spec result (set_frames (delete id (frames w)) w))
        as (Hst & _ & Hfr & _ & Hcalls).
      rewrite Hfr, Hst, Hcalls. done.
    + eexists _, _. split; [done|]. done.
Qed.

(** Claim C5.  With [isEqualRef] as equality function, a [setState]
    seen by a mounted [useSelector] instance recomputes the selector on
    the new state; when the result is [===] to the cached value the
    instance is left as it is (same cache, same [forceRender] count);
    otherwise the cache becomes the new value and [forceRender] has been
    called once more. *)
Theorem C5_selector_refresh (w : world) (c : nat) (h : hook) (v : value) :
  hooks w !! c = Some h →
  equalityFn h = isEqualRef →
  registrations (Refresh c) (listeners w) = 1%nat →
  let newSelected := selector h v in
  (strict_equals newSelected (current h) = true →
     hooks (setState v w) !! c = Some h) ∧
  (strict_equals newSelected (current h) = false →
     ∃ h', hooks (setState v w) !! c = Some h' ∧
           current h' = newSelected ∧ renders h' = S (renders h) ∧
           selector h' = selector h ∧ equalityFn h' = equalityFn h).
Proof.
  intros Hh Heq Hreg. simpl.
  rewrite (setState_hook w c h v Hh Hreg), Heq. unfold isEqualRef.
  split; intros ->; [done|]. eexists. split; [done|]. done.
Qed.
End RepositoryClaims.

Section UnsubscribeClaims.
Import Repo.

(** Claim C6, as the code has it.  The closure returned by [onChange]
    removes the most recent registration of the same listener function.
    When that function was not registered before and is not registered
    again or removed by anyone else, the first call removes exactly its
    registration and keeps every other one in order, a further call
    changes nothing, and from then on the listener is not called as long
    as it is not registered again. *)
Theorem C6_unsubscribe_single (acts : gmap string Action) (l : listener)
    (w w1 : world) (es : list event) :
  l ∉ listeners w →
  forallb (λ e, negb (touches l e)) es = true →
  run (storifyActions acts) es (onChange l w).1 = Some w1 →
  let unsub := (onChange l w).2 in
  (∀ w', listeners (unsub w') = off l (listeners w')) ∧
  (∀ ls1 ls2, l ∉ ls2 → off l (ls1 ++ l :: ls2) = ls1 ++ ls2) ∧
  (∀ ls, l ∉ ls → off l ls = ls) ∧
  listeners (unsub w1) = filter (λ x, x ≠ l) (listeners w1) ∧
  (∀ l', l' ≠ l →
     registrations l' (listeners (unsub w1)) = registrations l' (listeners w1)) ∧
  registrations l (listeners w1) = 1%nat ∧
  registrations l (listeners (unsub w1)) = 0%nat ∧
  unsub (unsub w1) = unsub w1 ∧
  ∀ es' w2,
    forallb (λ e, negb (registers l e)) es' = true →
    run (storifyActions acts) es' (unsub w1) = Some w2 →
    observed l (calls w2) = observed l (calls (unsub w1)).
Proof.
  intros Hfresh Hes Hrun. simpl.
  assert (H1 : registrations l (listeners w1) = 1%nat).
  { rewrite (run_untouched acts es _ w1 l Hrun Hes). simpl. unfold on.
    rewrite registrations_app. apply registrations_0 in Hfresh as ->.
    unfold registrations. by rewrite filter_cons_True. }
  assert (H0 : registrations l (off l (listeners w1)) = 0%nat).
  { rewrite off_registrations, H1. done. }
  split; [done|]. split; [apply off_last|]. split; [apply off_absent|].
  split; [apply off_single; lia|].
  split; [intros l' Hne; by apply off_other|].
  split; [done|]. split; [done|]. split.
  - unfold unsubscribe. simpl. rewrite (off_absent l (off l (listeners w1))); [done|].
    by apply registrations_0.
  - intros es' w2 Hes' Hrun'. by apply (run_unobserved acts es' _ w2 l Hrun' Hes').
Qed.
End UnsubscribeClaims.

(** ** Examples on the repository *)

Section RepositoryExamples.
Import Repo.

(** Two listeners and three calls, the second with the value already
    held. *)
Lemma C1_witness :
  let w := (onChange (Callback 1) (onChange (Callback 0) (createRepository (VNum 0))).1).1 in
  let w' := foldl (λ w v, setState v w) w [VNum 1; VNum 1; VNum 2] in
  registrations (Callback 1) (listeners w) = 1%nat ∧
  observed (Callback 1) (calls w') = [(VNum 1, VNum 0); (VNum 1, VNum 1); (VNum 2, VNum 1)] ∧
  calls w' = [(Callback 0, VNum 1, VNum 0); (Callback 1, VNum 1, VNum 0);
              (Callback 0, VNum 1, VNum 1); (Callback 1, VNum 1, VNum 1);
              (Callback 0, VNum 2, VNum 1); (Callback 1, VNum 2, VNum 1)].
Proof.
  intros w w'.
  destruct (C1_setState_notifies w [VNum 1; VNum 1; VNum 2]) as [_ [_ [Hcalls [_ Hobs]]]].
  split; [reflexivity|]. split.
  - destruct (Hobs (Callback 1)) as [Hseen _]; [reflexivity|]. exact Hseen.
  - exact Hcalls.
Defined.

(** An action resolving to the object [{value: 5, version: 1}], here the
    object at address 7, and the same call failing instead. *)
Lemma C4_witness :
  let acts : gmap string Action := {[ "increment" := 0%nat ]} in
  let repo := createRepository (VObj 0) in
  let w := set_next 1 (set_frames {[ 0%nat := "increment" ]} repo) in
  let bound := actions (createStore repo acts) in
  (∃ w' r, step bound (Settle 0 (Fulfilled (VObj 7))) w = Some (w', Some r) ∧
           state w' = VObj 7 ∧ r = Fulfilled VUndefined) ∧
  (∃ w' r, step bound (Settle 0 (Rejected (VStr "boom"))) w = Some (w', Some r) ∧
           state w' = VObj 0 ∧ calls w' = [] ∧ r = Rejected (VStr "boom")).
Proof.
  intros acts repo w bound. split.
  - destruct (C4_store_bound_action repo acts w "increment" 0 (Fulfilled (VObj 7)))
      as [_ Hsettle].
    { exists 0%nat. apply lookup_singleton_eq. }
    destruct Hsettle as (w' & r & Hstep & _ & _ & Hstate & _ & Hr).
    { apply lookup_singleton_eq. }
    exists w', r. split; [exact Hstep|]. split; [exact Hstate|exact Hr].
  - destruct (C4_store_bound_action repo acts w "increment" 0 (Rejected (VStr "boom")))
      as [_ Hsettle].
    { exists 0%nat. apply lookup_singleton_eq. }
    destruct Hsettle as (w' & r & Hstep & _ & Hstate & _ & _ & Hcalls & Hr).
    { apply lookup_singleton_eq. }
    exists w', r. split; [exact Hstep|]. split; [exact Hstate|]. split; [exact Hcalls|exact Hr].
Defined.

(** The selector [s => s] on a repository holding object 0: a [setState]
    with another object re-renders once, a [setState] with the object
    already held does nothing to the instance. *)
Lemma C5_witness :
  let w := effect 0 (render 0 (λ s, s) isEqualRef (createRepository (VObj 0))) in
  (∃ h', hooks (setState (VObj 1) w) !! 0%nat = Some h' ∧
         current h' = VObj 1 ∧ renders h' = 1%nat) ∧
  hooks (setState (VObj 0) w) !! 0%nat = hooks w !! 0%nat.
Proof.
  intros w.
  destruct (mount_registered 0 (λ s, s) isEqualRef (createRepository (VObj 0)))
    as [Hh Hreg]; [done|apply not_elem_of_nil|].
  split.
  - destruct (C5_selector_refresh w 0 _ (VObj 1) Hh eq_refl Hreg) as [_ Hnew].
    destruct Hnew as (h' & Hh' & Hcur & Hren & _); [reflexivity|].
    exists h'. split; [exact Hh'|]. split; [exact Hcur|exact Hren].
  - destruct (C5_selector_refresh w 0 _ (VObj 0) Hh eq_refl Hreg) as [Hsame _].
    fold w in Hh. rewrite Hh. apply Hsame. reflexivity.
Defined.

(** Claim C6 as stated fails when a listener function is registered
    twice: the second call of the first closure removes the second
    registration, whose own closure was never called, and the listener
    is then no longer notified at all. *)
Lemma C6_counterexample :
  let w0 := createRepository VUndefined in
  let unsub1 := (onChange (Callback 0) w0).2 in
  let w2 := (onChange (Callback 0) (onChange (Callback 0) w0).1).1 in
  listeners w2 = [Callback 0; Callback 0] ∧
  listeners (unsub1 w2) = [Callback 0] ∧
  listeners (unsub1 (unsub1 w2)) = [] ∧
  unsub1 (unsub1 w2) ≠ unsub1 w2 ∧
  calls (setState (VNum 1) (unsub1 (unsub1 w2))) = [].
Proof.
  simpl. repeat split; try reflexivity.
  intros Heq. apply (f_equal listeners) in Heq. discriminate Heq.
Qed.

Lemma C6_witness :
  let acts : gmap string Action := ∅ in
  let w := (onChange (Callback 1) (createRepository VUndefined)).1 in
  let unsub := (onChange (Callback 0) w).2 in
  let es := [OnChange (Callback 2); SetState (VNum 1)] in
  let w1 := setState (VNum 1) (onChange (Callback 2) (onChange (Callback 0) w).1).1 in
  run (storifyActions acts) es (onChange (Callback 0) w).1 = Some w1 ∧
  listeners w1 = [Callback 1; Callback 0; Callback 2] ∧
  listeners (unsub w1) = [Callback 1; Callback 2] ∧
  unsub (unsub w1) = unsub w1.
Proof.
  intros acts w unsub es w1.
  destruct (C6_unsubscribe_single acts (Callback 0) w w1 es)
    as (_ & _ & _ & Hls & _ & _ & _ & Hidem & _).
  - apply not_elem_of_cons. split; [discriminate|apply not_elem_of_nil].
  - reflexivity.
  - reflexivity.
  - split; [reflexivity|]. split; [reflexivity|].
    split; [etrans; [exact Hls|reflexivity]|exact Hidem].
Defined.
End RepositoryExamples.

(** ** wrapAction and wrapActions *)

Section Wrapping.
Import Tracker.
Variable onChange : string → PromiseState → world → world.

Lemma wrapEntries_acc l acc w :
  fold_left (λ '(acc, w) '(key, value),
      let handleChange := λ key state, onChange key state in
      let '(r, w) := wrapAction key value (λ state, handleChange key state) w in
      (acc ++ [(key, r)], w)) l (acc, w)
  = (acc ++ (closures onChange <$> l), set_isSubscribed (subscribe_all l (isSubscribed w)) w).
Proof.
  revert acc w. induction l as [|[k v] l IH]; intros acc w; simpl.
  - rewrite app_nil_r. by destruct w.
  - rewrite IH. simpl. by rewrite <- app_assoc.
Qed.

Lemma wrapEntries_spec l w :
  wrapEntries l onChange w
  = (closures onChange <$> l, set_isSubscribed (subscribe_all l (isSubscribed w)) w).
Proof. unfold wrapEntries. by rewrite wrapEntries_acc. Qed.

Lemma subscribe_all_lookup l s k :
  subscribe_all l s !! k = if decide (k ∈ l.*1) then Some true else s !! k.
Proof.
  revert s. induction l as [|[k' v] l IH]; intros s; simpl.
  - destruct (decide (k ∈ [])) as [Hin|]; [|done]. by apply elem_of_nil in Hin.
  - rewrite IH. destruct (decide (k ∈ l.*1)) as [Hin|Hnotin].
    + rewrite decide_True; [done|]. by apply elem_of_cons; right.
    + destruct (decide (k = k')) as [->|Hne].
      * rewrite lookup_insert_eq, decide_True; [done|]. by apply elem_of_cons; left.
      * rewrite lookup_insert_ne by done. rewrite decide_False; [done|].
        intros [?|?]%elem_of_cons; done.
Qed.

Variable actions : gmap string Action.

Lemma wrappers_lookup w key :
  wrappers actions onChange w !! key
  = (λ a, Wrapped (impl key a (λ state, onChange key state)) (unsubscribe_cell key))
      <$> actions !! key.
Proof.
  unfold wrappers. rewrite wrapEntries_spec. simpl.
  apply (fromEntries_fmap (λ k a, Wrapped (impl k a (λ state, onChange k state))
                                    (unsubscribe_cell k))).
Qed.

Lemma wrapActions_lookup w key :
  (wrapActions actions onChange w).1 !! key
  = (λ a, impl key a (λ state, onChange key state)) <$> actions !! key.
Proof.
  unfold wrapActions. rewrite wrapEntries_spec. simpl.
  rewrite <- list_fmap_compose.
  apply (fromEntries_fmap (λ k a, impl k a (λ state, onChange k state))).
Qed.

Lemma wrapActions_wrappers w :
  (wrapActions actions onChange w).1 = action <$> wrappers actions onChange w.
Proof.
  apply map_eq. intros key.
  rewrite wrapActions_lookup, lookup_fmap, wrappers_lookup.
  by destruct (actions !! key).
Qed.

Lemma wrapActions_world w :
  let w' := (wrapActions actions onChange w).2 in
  heap w' = heap w ∧ brk w' = brk w ∧ promiseState w' = promiseState w ∧
  frames w' = frames w ∧ next w' = next w ∧ trace w' = trace w ∧
  ∀ key, is_Some (actions !! key) → isSubscribed w' !! key = Some true.
Proof.
  unfold wrapActions. rewrite wrapEntries_spec. simpl. repeat split.
  intros key [a Ha]. rewrite subscribe_all_lookup, decide_True; [done|].
  apply list_elem_of_fmap. exists (key, a). split; [done|].
  by apply elem_of_map_to_list.
Qed.
End Wrapping.

(** ** trackActions *)

Section Tracking.
Import Tracker.

Lemma handleChange_spec name state w :
  let fields := fields_of (promiseState w) w in
  let fields' := <[name := add (default NaN (fields !! name)) (delta state)]> fields in
  handleChange name state w
  = World (<[brk w := fields']> (heap w)) (S (brk w)) (brk w) (isSubscribed w)
      (frames w) (next w) (trace w ++ [Snapshot (brk w) fields']).
Proof.
  unfold handleChange, alloc, increment, decrement, put, get_number, fields_of.
  destruct state; simpl; rewrite !lookup_insert_eq; simpl; by rewrite insert_insert_eq.
Qed.

Lemma handleChange_counter name state w key :
  counter key (handleChange name state w)
  = if decide (name = key)
    then Some (add (default NaN (counter name w)) (delta state))
    else counter key w.
Proof.
  rewrite handleChange_spec. unfold counter, fields_of at 1. simpl.
  rewrite lookup_insert_eq. simpl.
  destruct (decide (name = key)) as [->|Hne].
  - by rewrite lookup_insert_eq.
  - by rewrite lookup_insert_ne.
Qed.

Lemma snapshots_app tr1 tr2 : snapshots (tr1 ++ tr2) = snapshots tr1 ++ snapshots tr2.
Proof. unfold snapshots. apply omap_app. Qed.

(** Suspended calls. *)
Lemma suspended_empty key : suspended key ∅ = 0%nat.
Proof. unfold suspended. by rewrite map_filter_empty, map_size_empty. Qed.

Lemma suspended_insert key id k (fs : gmap nat string) :
  fs !! id = None →
  suspended key (<[id := k]> fs)
  = if decide (k = key) then S (suspended key fs) else suspended key fs.
Proof.
  intros Hnone. unfold suspended.
  destruct (decide (k = key)) as [->|Hne].
  - rewrite map_filter_insert_True by done.
    apply map_size_insert_None. by apply map_lookup_filter_None_2; left.
  - rewrite map_filter_insert_not'; [done|done|]. intros y. by rewrite Hnone.
Qed.

Lemma suspended_delete key id k (fs : gmap nat string) :
  fs !! id = Some k →
  suspended key (delete id fs)
  = if decide (k = key) then pred (suspended key fs) else suspended key fs.
Proof.
  intros Hsome. unfold suspended. rewrite map_filter_delete.
  destruct (decide (k = key)) as [->|Hne].
  - apply map_size_delete_Some. exists key. by apply map_lookup_filter_Some_2.
  - apply map_size_delete_None. apply map_lookup_filter_None_2. right.
    intros k' Hk'. simpl. congruence.
Qed.

Lemma suspended_positive key id (fs : gmap nat string) :
  fs !! id = Some key → (0 < suspended key fs)%nat.
Proof.
  intros Hsome. unfold suspended.
  assert (Hin : filter (λ kv : nat * string, kv.2 = key) fs !! id = Some key)
    by (by apply map_lookup_filter_Some_2).
  destruct (decide (size (filter (λ kv : nat * string, kv.2 = key) fs) = 0%nat))
    as [Hz|]; [|lia].
  apply map_size_empty_inv in Hz. rewrite Hz in Hin. by rewrite lookup_empty in Hin.
Qed.

Variable actions : gmap string Action.

Lemma initial_fields :
  fromEntries ((λ key, (key, Int 0)) <$> keys actions) = (λ _, Int 0) <$> actions.
Proof.
  apply map_eq. intros key. rewrite lookup_fmap. unfold keys.
  rewrite <- list_fmap_compose.
  exact (fromEntries_fmap (λ _ _, Int 0) actions key).
Qed.

Lemma tracker_spec :
  let '(t, w) := tracker actions in
  initialState t = 0%nat ∧
  (∀ key, wrappedActions t !! key
          = (λ a, impl key a (λ state, handleChange key state)) <$> actions !! key) ∧
  heap w = {[ 0%nat := (λ _, Int 0) <$> actions ]} ∧
  brk w = 1%nat ∧ promiseState w = 0%nat ∧ frames w = ∅ ∧ next w = 0%nat ∧
  trace w = [] ∧
  ∀ key, is_Some (actions !! key) → isSubscribed w !! key = Some true.
Proof.
  unfold tracker, trackActions, alloc. simpl. rewrite initial_fields.
  set (w1 := set_promiseState _ _).
  pose proof (wrapActions_lookup handleChange actions w1) as Hlookup.
  pose proof (wrapActions_world handleChange actions w1) as Hworld.
  destruct (wrapActions actions handleChange w1) as [wa w2]. simpl in *.
  destruct Hworld as (-> & -> & -> & -> & -> & -> & Hsub).
  repeat split; done.
Qed.
End Tracking.

(** ** The tracker's invariant *)

Section TrackerInvariant.
Import Tracker.
Variable actions : gmap string Action.

Lemma invariant_dom w :
  invariant actions w → dom (fields_of (promiseState w) w) = dom actions.
Proof.
  intros Hinv. apply set_eq. intros key. rewrite !elem_of_dom.
  pose proof (inv_counters _ _ Hinv key) as Hc. unfold counter in Hc. rewrite Hc.
  by rewrite fmap_is_Some.
Qed.

Lemma tracker_invariant : invariant actions (tracker actions).2.
Proof.
  pose proof (tracker_spec actions) as Hspec.
  destruct (tracker actions) as [t w]. simpl.
  destruct Hspec as (_ & _ & Hheap & Hbrk & Hps & Hfr & Hnext & Htr & Hsub).
  split.
  - intros key. unfold counter, fields_of, inflight.
    rewrite Hps, Hheap, Hfr, lookup_singleton_eq, suspended_empty. simpl.
    by rewrite lookup_fmap.
  - intros id key. by rewrite Hfr, lookup_empty.
  - done.
  - by rewrite Hbrk, Hps.
  - intros a Ha. rewrite Hheap. apply lookup_singleton_ne. lia.
  - by rewrite Hheap, lookup_singleton_eq.
  - by rewrite Htr, Hps.
  - intros a content. rewrite Htr. simpl. by intros ?%elem_of_nil.
Qed.

(** One phase event of [key] handled by [handleChange], together with
    a change of the suspended calls that matches it. *)
Lemma invariant_transition w key state fs' next' tr :
  invariant actions w →
  is_Some (actions !! key) →
  (∀ key', Z.of_nat (suspended key' fs')
           = (Z.of_nat (inflight key' w)
              + if decide (key = key') then delta state else 0)%Z) →
  (∀ id k, fs' !! id = Some k → is_Some (actions !! k) ∧ (id < next')%nat) →
  snapshots tr = [] →
  let w1 := handleChange key state w in
  invariant actions
    (World (heap w1) (brk w1) (promiseState w1) (isSubscribed w1) fs' next'
       (trace w1 ++ tr)).
Proof.
  intros Hinv [a Ha] Hsusp Hfs Htr w1. subst w1. rewrite handleChange_spec. simpl.
  pose proof (inv_counters _ _ Hinv) as Hc. unfold counter in Hc.
  pose proof (inv_brk _ _ Hinv) as Hbrk.
  split; simpl.
  - intros key'. unfold counter, fields_of, inflight. simpl.
    rewrite lookup_insert_eq. simpl. rewrite (Hsusp key').
    destruct (decide (key = key')) as [<-|Hne].
    + rewrite lookup_insert_eq, Hc, Ha. simpl. done.
    + rewrite lookup_insert_ne by done. rewrite Hc.
      destruct (actions !! key'); simpl; [|done]. do 2 f_equal. lia.
  - done.
  - apply (inv_subscribed _ _ Hinv).
  - done.
  - intros b Hb. rewrite lookup_insert_ne by lia. apply (inv_heap _ _ Hinv). lia.
  - rewrite lookup_insert_ne by lia. apply (inv_initial _ _ Hinv).
  - rewrite !snapshots_app, Htr, app_nil_r, fmap_app. simpl.
    rewrite (inv_addrs _ _ Hinv), Hbrk. by rewrite seq_S.
  - intros b content. rewrite !snapshots_app, Htr, app_nil_r. simpl.
    intros [Hold|Hnew%list_elem_of_singleton]%elem_of_app.
    + destruct (inv_snapshots _ _ Hinv b content Hold) as [Hheap Hdom].
      split; [|done]. rewrite lookup_insert_ne; [done|].
      intros <-. rewrite (inv_heap _ _ Hinv) in Hheap; [done|lia].
    + injection Hnew as -> ->. split; [apply lookup_insert_eq|].
      rewrite dom_insert_L, (invariant_dom w Hinv).
      apply subseteq_union_1_L, singleton_subseteq_l, elem_of_dom. eauto.
Qed.
End TrackerInvariant.

(** ** Steps of the tracker *)

Section TrackerSteps.
Import Tracker.
Variable actions : gmap string Action.

Let wa := wrappedActions (tracker actions).1.

Lemma tracker_lookup key :
  wa !! key = (λ a, impl key a (handleChange key)) <$> actions !! key.
Proof.
  subst wa. pose proof (tracker_spec actions) as Hspec.
  destruct (tracker actions) as [t w]. simpl.
  destruct Hspec as (_ & Hwa & _). apply Hwa.
Qed.

Lemma step_call w key a :
  invariant actions w → actions !! key = Some a →
  let w1 := handleChange key pending w in
  step wa (Call key) w
  = Some (World (heap w1) (brk w1) (promiseState w1) (isSubscribed w1)
            (<[next w := key]> (frames w)) (S (next w)) (trace w1 ++ [Started a])).
Proof.
  intros Hinv Ha w1. subst w1. rewrite handleChange_spec.
  unfold step. rewrite tracker_lookup, Ha. simpl.
  unfold emitChange. rewrite decide_True by (apply (inv_subscribed _ _ Hinv); eauto).
  rewrite handleChange_spec. reflexivity.
Qed.

Lemma step_settle w id key o :
  invariant actions w → frames w !! id = Some key →
  let w1 := handleChange key (phase_of o) w in
  step wa (Settle id o) w
  = Some (World (heap w1) (brk w1) (promiseState w1) (isSubscribed w1)
            (delete id (frames w)) (next w) (trace w1 ++ [Settled id o])).
Proof.
  intros Hinv Hframe w1. subst w1. rewrite handleChange_spec.
  unfold step. rewrite Hframe. simpl.
  destruct (inv_frames _ _ Hinv id key Hframe) as [[a Ha] _].
  rewrite tracker_lookup, Ha. simpl.
  unfold emitChange. simpl.
  rewrite !decide_True by (apply (inv_subscribed _ _ Hinv); eauto).
  destruct o; simpl; rewrite handleChange_spec; reflexivity.
Qed.

Lemma step_invariant e w w' :
  invariant actions w → step wa e w = Some w' → invariant actions w'.
Proof.
  intros Hinv Hstep. destruct e as [key|id o].
  - destruct (actions !! key) as [a|] eqn:Ha.
    + rewrite (step_call w key a Hinv Ha) in Hstep. injection Hstep as <-.
      apply (invariant_transition actions w key pending); [done|eauto|..|done].
      * intros key'. unfold inflight.
        rewrite suspended_insert.
        -- destruct (decide (key = key')); simpl; lia.
        -- destruct (frames w !! next w) as [k|] eqn:Hk; [|done].
           apply (inv_frames _ _ Hinv) in Hk as [_ Hlt]. lia.
      * intros id k [[-> ->]|[Hne Hk]]%lookup_insert_Some.
        -- split; [eauto|lia].
        -- destruct (inv_frames _ _ Hinv id k Hk). split; [done|lia].
    + unfold step in Hstep. by rewrite tracker_lookup, Ha in Hstep.
  - destruct (frames w !! id) as [key|] eqn:Hframe.
    + rewrite (step_settle w id key o Hinv Hframe) in Hstep. injection Hstep as <-.
      destruct (inv_frames _ _ Hinv id key Hframe) as [Hkey _].
      apply (invariant_transition actions w key (phase_of o)); [done|done|..|done].
      * intros key'. unfold inflight.
        rewrite (suspended_delete key' id key) by done.
        pose proof (suspended_positive key id (frames w) Hframe).
        destruct (decide (key = key')) as [<-|]; destruct o; simpl; lia.
      * intros id' k [Hne Hk]%lookup_delete_Some.
        apply (inv_frames _ _ Hinv id' k Hk).
    + unfold step in Hstep. by rewrite Hframe in Hstep.
Qed.

Lemma run_invariant es w w' :
  invariant actions w → run wa es w = Some w' → invariant actions w'.
Proof.
  revert w. induction es as [|e es IH]; intros w Hinv; simpl.
  - by intros [= <-].
  - destruct (step wa e w) as [w1|] eqn:Hstep; simpl; [|done].
    apply IH. by apply (step_invariant e w).
Qed.

Lemma reachable_invariant es w :
  run wa es (tracker actions).2 = Some w → invariant actions w.
Proof. apply run_invariant, tracker_invariant. Qed.
End TrackerSteps.

(** ** Steps of wrapped actions, for any callback *)

Section WrappedSteps.
Import Tracker.
Variable onChange : string → PromiseState → world → world.
Variable actions : gmap string Action.
Variable w0 : world.

Let ws := wrappers actions onChange w0.

Lemma wstep_call w key a :
  actions !! key = Some a →
  wstep ws (Ev (Call key)) w
  = let w1 := log (Started a) (emitChange key (onChange key) pending w) in
    Some (set_next (S (next w1)) (set_frames (<[next w1 := key]> (frames w1)) w1)).
Proof.
  intros Ha. subst ws. simpl. rewrite lookup_fmap, wrappers_lookup, Ha. reflexivity.
Qed.

Lemma wstep_settle w id key a o :
  frames w !! id = Some key → actions !! key = Some a →
  wstep ws (Ev (Settle id o)) w
  = Some (log (Settled id o)
            (emitChange key (onChange key) (phase_of o)
               (set_frames (delete id (frames w)) w))).
Proof.
  intros Hframe Ha. subst ws. simpl. rewrite Hframe. simpl.
  rewrite lookup_fmap, wrappers_lookup, Ha. simpl. by destruct o.
Qed.

Lemma wstep_unsubscribe w key :
  is_Some (actions !! key) →
  wstep ws (Unsubscribe key) w = Some (unsubscribe_cell key w).
Proof.
  intros [a Ha]. subst ws. simpl. by rewrite wrappers_lookup, Ha.
Qed.

(** The steps that can happen, and what they are. *)
Lemma wstep_cases e w w' :
  wstep ws e w = Some w' →
  (∃ key a, e = Ev (Call key) ∧ actions !! key = Some a) ∨
  (∃ id o key a, e = Ev (Settle id o) ∧ frames w !! id = Some key ∧
                 actions !! key = Some a) ∨
  (∃ key, e = Unsubscribe key ∧ is_Some (actions !! key)).
Proof.
  destruct e as [[key|id o]|key]; subst ws; simpl.
  - rewrite lookup_fmap, wrappers_lookup.
    destruct (actions !! key) as [a|] eqn:Ha; simpl; [|done]. intros _. left. eauto.
  - destruct (frames w !! id) as [key|] eqn:Hframe; simpl; [|done].
    rewrite lookup_fmap, wrappers_lookup.
    destruct (actions !! key) as [a|] eqn:Ha; simpl; [|done].
    intros _. right. left. eauto 10.
  - rewrite wrappers_lookup.
    destruct (actions !! key) as [a|] eqn:Ha; simpl; [|done]. intros _. right. right. eauto.
Qed.
End WrappedSteps.

(** ** Wrapped actions observed by a client callback *)

Section Observed.
Import Tracker.
Variable actions : gmap string Action.

Let ws := wrappers actions notify empty_world.

Lemma emitChange_notify key state w :
  emitChange key (notify key) state w
  = if decide (isSubscribed w !! key = Some true) then log (Changed key state) w else w.
Proof. done. Qed.

(** A step never makes an unsubscribed wrapper subscribed again, and
    while a wrapper is unsubscribed no step calls the callback for it. *)
Lemma wstep_unsubscribed e w w' key :
  wstep ws e w = Some w' →
  isSubscribed w !! key = Some false →
  isSubscribed w' !! key = Some false ∧
  ∃ tr, trace w' = trace w ++ tr ∧ ∀ state, Changed key state ∉ tr.
Proof.
  intros Hstep Hoff.
  destruct (wstep_cases notify actions empty_world e w w' Hstep)
    as [(k & a & -> & Ha)|[(id & o & k & a & -> & Hframe & Ha)|(k & -> & Hk)]].
  - unfold ws in Hstep. rewrite (wstep_call notify actions empty_world w k a Ha) in Hstep.
    rewrite emitChange_notify in Hstep. injection Hstep as <-.
    destruct (decide (isSubscribed w !! k = Some true)) as [Hon|_]; simpl.
    + split; [done|]. exists [Changed k pending; Started a].
      split; [by rewrite <- app_assoc|].
      intros state [Heq|[Heq|[]%elem_of_nil]%elem_of_cons]%elem_of_cons; [|done].
      injection Heq as <- _. congruence.
    + split; [done|]. exists [Started a]. split; [done|].
      intros state [Heq|[]%elem_of_nil]%elem_of_cons. done.
  - unfold ws in Hstep.
    rewrite (wstep_settle notify actions empty_world w id k a o Hframe Ha) in Hstep.
    rewrite emitChange_notify in Hstep. injection Hstep as <-. simpl.
    destruct (decide (isSubscribed w !! k = Some true)) as [Hon|_]; simpl.
    + split; [done|]. exists [Changed k (phase_of o); Settled id o].
      split; [by rewrite <- app_assoc|].
      intros state [Heq|[Heq|[]%elem_of_nil]%elem_of_cons]%elem_of_cons; [|done].
      injection Heq as <- _. congruence.
    + split; [done|]. exists [Settled id o]. split; [done|].
      intros state [Heq|[]%elem_of_nil]%elem_of_cons. done.
  - unfold ws in Hstep.
    rewrite (wstep_unsubscribe notify actions empty_world w k Hk) in Hstep.
    injection Hstep as <-. simpl. split.
    + destruct (decide (k = key)) as [->|Hne].
      * apply lookup_insert_eq.
      * by rewrite lookup_insert_ne.
    + exists []. split; [by rewrite app_nil_r|]. intros state. apply not_elem_of_nil.
Qed.

Lemma wrun_unsubscribed es w w' key :
  wrun ws es w = Some w' →
  isSubscribed w !! key = Some false →
  isSubscribed w' !! key = Some false ∧
  ∃ tr, trace w' = trace w ++ tr ∧ ∀ state, Changed key state ∉ tr.
Proof.
  revert w. induction es as [|e es IH]; intros w; simpl.
  - intros [= <-] Hoff. split; [done|]. exists []. split; [by rewrite app_nil_r|].
    intros state. apply not_elem_of_nil.
  - destruct (wstep ws e w) as [w1|] eqn:Hstep; simpl; [|done].
    intros Hrun Hoff.
    destruct (wstep_unsubscribed e w w1 key Hstep Hoff) as (Hoff1 & tr1 & Htr1 & Hno1).
    destruct (IH w1 Hrun Hoff1) as (Hoff' & tr2 & Htr2 & Hno2).
    split; [done|]. exists (tr1 ++ tr2). split.
    + by rewrite Htr2, Htr1, <- app_assoc.
    + intros state [?|?]%elem_of_app; [by apply (Hno1 state)|by apply (Hno2 state)].
Qed.
End Observed.

Section ObservedRuns.
Import Tracker.
Variable actions : gmap string Action.

Let wa := (wrapActions actions notify empty_world).1.
Let ws := wrappers actions notify empty_world.

Lemma step_wstep e w : step wa e w = wstep ws (Ev e) w.
Proof. subst wa ws. simpl. by rewrite wrapActions_wrappers. Qed.

(** Through [wrapActions] nothing unsubscribes. *)
Lemma step_isSubscribed e w w' : step wa e w = Some w' → isSubscribed w' = isSubscribed w.
Proof.
  rewrite step_wstep. intros Hstep.
  destruct (wstep_cases notify actions empty_world (Ev e) w w' Hstep)
    as [(k & a & [= ->] & Ha)|[(id & o & k & a & [= ->] & Hframe & Ha)|(k & [=] & _)]].
  - unfold ws in Hstep. rewrite (wstep_call notify actions empty_world w k a Ha) in Hstep.
    rewrite emitChange_notify in Hstep. injection Hstep as <-.
    by destruct (decide (isSubscribed w !! k = Some true)).
  - unfold ws in Hstep.
    rewrite (wstep_settle notify actions empty_world w id k a o Hframe Ha) in Hstep.
    rewrite emitChange_notify in Hstep. injection Hstep as <-. simpl.
    by destruct (decide (isSubscribed w !! k = Some true)).
Qed.

Lemma run_isSubscribed es w w' : run wa es w = Some w' → isSubscribed w' = isSubscribed w.
Proof.
  revert w. induction es as [|e es IH]; intros w; simpl.
  - by intros [= <-].
  - destruct (step wa e w) as [w1|] eqn:Hstep; simpl; [|done].
    intros Hrun. rewrite (IH w1 Hrun). by apply (step_isSubscribed e).
Qed.

Lemma reachable_subscribed es w key :
  run wa es (wrapActions actions notify empty_world).2 = Some w →
  is_Some (actions !! key) → isSubscribed w !! key = Some true.
Proof.
  intros Hrun Hkey. rewrite (run_isSubscribed es _ w Hrun).
  by apply (wrapActions_world notify actions empty_world).
Qed.
End ObservedRuns.

(** ** Claims on wrapped actions *)

Section WrappedClaims.
Import Tracker.

(** Claim C3.  In any state the wrapped actions can be in, calling the
    wrapped action of [key] calls the callback with [(key, pending)] and
    only then the underlying action.  When the underlying promise is
    fulfilled, the callback is called with [(key, resolved)] and the
    wrapped call's promise is fulfilled with the same value; when it is
    rejected, the callback is called with [(key, rejected)] and then the
    wrapped call's promise is rejected with the same error. *)
Theorem C3_wrapped_call_phases (actions : gmap string Action) (es : list event)
    (w : world) (key : string) (a : Action) :
  let wa := (wrapActions actions notify empty_world).1 in
  run wa es (wrapActions actions notify empty_world).2 = Some w →
  actions !! key = Some a →
  (∃ w', step wa (Call key) w = Some w' ∧
         trace w' = trace w ++ [Changed key pending; Started a] ∧
         frames w' = <[next w := key]> (frames w)) ∧
  ∀ id, frames w !! id = Some key →
    (∀ response, ∃ w',
       step wa (Settle id (Fulfilled response)) w = Some w' ∧
       trace w' = trace w ++ [Changed key resolved; Settled id (Fulfilled response)]) ∧
    (∀ error, ∃ w',
       step wa (Settle id (Rejected error)) w = Some w' ∧
       trace w' = trace w ++ [Changed key rejected; Settled id (Rejected error)]).
Proof.
  intros wa Hrun Ha.
  assert (Hon : isSubscribed w !! key = Some true)
    by (apply (reachable_subscribed actions es); eauto).
  split.
  - subst wa. rewrite step_wstep, (wstep_call notify actions empty_world w key a Ha).
    rewrite emitChange_notify, decide_True by done. simpl.
    eexists. split; [done|]. simpl. by rewrite <- app_assoc.
  - intros id Hframe. split; intros v; subst wa; rewrite step_wstep;
      rewrite (wstep_settle notify actions empty_world w id key a _ Hframe Ha);
      rewrite emitChange_notify, decide_True by done;
      (eexists; split; [done|]); simpl; by rewrite <- app_assoc.
Qed.

(** Claim C7.  Once the [unsubscribe] of the wrapper of [key] has been
    called, no later step calls the callback for [key], whatever is
    called or settles afterwards, calls suspended before included; a call
    of the wrapped action still calls the underlying action, and a
    suspended call still settles with the underlying result or error.
    With [handleChange] of [trackActions] as the callback, such steps of
    an unsubscribed wrapper hand no object to the client and leave
    [promiseState] and all objects as they are. *)
Theorem C7_unsubscribed_wrapper (actions : gmap string Action)
    (es1 es2 : list wevent) (w1 w2 : world) (key : string) (a : Action) :
  let ws := wrappers actions notify empty_world in
  actions !! key = Some a →
  wrun ws es1 (wrapActions actions notify empty_world).2 = Some w1 →
  wrun ws (Unsubscribe key :: es2) w1 = Some w2 →
  frames (unsubscribe_cell key w1) = frames w1 ∧
  isSubscribed w2 !! key = Some false ∧
  (∃ tr, trace w2 = trace w1 ++ tr ∧ ∀ state, Changed key state ∉ tr) ∧
  (∃ w', wstep ws (Ev (Call key)) w2 = Some w' ∧
         trace w' = trace w2 ++ [Started a] ∧
         frames w' = <[next w2 := key]> (frames w2)) ∧
  (∀ id o, frames w2 !! id = Some key →
     ∃ w', wstep ws (Ev (Settle id o)) w2 = Some w' ∧
           trace w' = trace w2 ++ [Settled id o]) ∧
  ∀ w, isSubscribed w !! key = Some false →
    let tws := wrappers actions handleChange empty_world in
    (∃ w', wstep tws (Ev (Call key)) w = Some w' ∧
           trace w' = trace w ++ [Started a] ∧
           promiseState w' = promiseState w ∧ heap w' = heap w) ∧
    ∀ id o, frames w !! id = Some key →
      ∃ w', wstep tws (Ev (Settle id o)) w = Some w' ∧
            trace w' = trace w ++ [Settled id o] ∧
            promiseState w' = promiseState w ∧ heap w' = heap w.
Proof.
  intros ws Ha _ Hrun.
  change (wstep ws (Unsubscribe key) w1 ≫= wrun ws es2 = Some w2) in Hrun.
  unfold ws in Hrun.
  rewrite (wstep_unsubscribe notify actions empty_world w1 key) in Hrun by eauto.
  simpl in Hrun.
  destruct (wrun_unsubscribed actions es2 (unsubscribe_cell key w1) w2 key Hrun)
    as (Hoff & tr & Htr & Hno); [apply lookup_insert_eq|].
  split; [done|]. split; [done|]. split; [by exists tr|].
  assert (Hnot : isSubscribed w2 !! key ≠ Some true) by (rewrite Hoff; discriminate).
  split; [|split].
  - unfold ws. rewrite (wstep_call notify actions empty_world w2 key a Ha).
    rewrite emitChange_notify, decide_False by done. eexists. split; [done|]. done.
  - intros id o Hframe. unfold ws.
    rewrite (wstep_settle notify actions empty_world w2 id key a o Hframe Ha).
    rewrite emitChange_notify, decide_False by done. eexists. split; [done|]. done.
  - intros w Hw tws.
    assert (Hnot' : isSubscribed w !! key ≠ Some true) by (rewrite Hw; discriminate).
    split.
    + unfold tws. rewrite (wstep_call handleChange actions empty_world w key a Ha).
      unfold emitChange. rewrite decide_False by done. eexists. split; [done|]. done.
    + intros id o Hframe. unfold tws.
      rewrite (wstep_settle handleChange actions empty_world w id key a o Hframe Ha).
      unfold emitChange. simpl. rewrite decide_False by done.
      eexists. split; [done|]. done.
Qed.
End WrappedClaims.

(** ** Runs of the tracker *)

Section TrackerRuns.
Import Tracker.
Variable actions : gmap string Action.

Let wa := wrappedActions (tracker actions).1.

(** Every step is one phase event handled by [handleChange], followed by
    bookkeeping that hands no snapshot to the client. *)
Lemma step_shape e w w' :
  invariant actions w → step wa e w = Some w' →
  ∃ key state fs' next' tr,
    is_Some (actions !! key) ∧ snapshots tr = [] ∧
    let w1 := handleChange key state w in
    w' = World (heap w1) (brk w1) (promiseState w1) (isSubscribed w1) fs' next'
           (trace w1 ++ tr).
Proof.
  intros Hinv Hstep. destruct e as [key|id o].
  - destruct (actions !! key) as [a|] eqn:Ha.
    + unfold wa in Hstep. rewrite (step_call actions w key a Hinv Ha) in Hstep.
      injection Hstep as <-.
      exists key, pending, (<[next w := key]> (frames w)), (S (next w)), [Started a].
      split; [by rewrite Ha|]. split; done.
    + unfold step in Hstep. unfold wa in Hstep. by rewrite tracker_lookup, Ha in Hstep.
  - destruct (frames w !! id) as [key|] eqn:Hframe.
    + unfold wa in Hstep. rewrite (step_settle actions w id key o Hinv Hframe) in Hstep.
      injection Hstep as <-.
      exists key, (phase_of o), (delete id (frames w)), (next w), [Settled id o].
      split; [apply (inv_frames _ _ Hinv id key Hframe)|]. split; done.
    + unfold step in Hstep. by rewrite Hframe in Hstep.
Qed.

(** One step hands over one new object: it is allocated by the step, holds
    the counters as they are after the step, and no other object is
    written. *)
Lemma step_snapshot e w w' :
  invariant actions w → step wa e w = Some w' →
  ∃ a content,
    snapshots (trace w') = snapshots (trace w) ++ [(a, content)] ∧
    heap w !! a = None ∧ a = promiseState w' ∧
    (∀ key, content !! key = counter key w') ∧
    ∀ b, b ≠ a → heap w' !! b = heap w !! b.
Proof.
  intros Hinv Hstep.
  destruct (step_shape e w w' Hinv Hstep) as (key & state & fs' & n' & tr & _ & Htr & ->).
  rewrite handleChange_spec. simpl.
  eexists _, _. rewrite !snapshots_app, Htr, app_nil_r. simpl.
  split; [done|]. split; [by apply (inv_heap _ _ Hinv)|]. split; [done|]. split.
  - intros k. unfold counter, fields_of. simpl. by rewrite lookup_insert_eq.
  - intros b Hb. by rewrite lookup_insert_ne.
Qed.

Lemma run_length es w w' :
  invariant actions w → run wa es w = Some w' →
  promiseState w' = (promiseState w + length es)%nat.
Proof.
  revert w. induction es as [|e es IH]; intros w Hinv; simpl.
  - intros [= <-]. lia.
  - destruct (step wa e w) as [w1|] eqn:Hstep; simpl; [|done].
    intros Hrun. rewrite (IH w1) by (done || by apply (step_invariant actions e w)).
    destruct (step_snapshot e w w1 Hinv Hstep) as (a & content & _ & _ & Ha & _).
    destruct (step_shape e w w1 Hinv Hstep) as (? & ? & ? & ? & ? & _ & _ & ->).
    rewrite handleChange_spec. simpl. rewrite (inv_brk _ _ Hinv). lia.
Qed.

Lemma invariant_last w a content :
  invariant actions w → last (snapshots (trace w)) = Some (a, content) →
  a = promiseState w ∧ ∀ key, content !! key = counter key w.
Proof.
  intros Hinv Hlast.
  assert (Hin : (a, content) ∈ snapshots (trace w)).
  { apply last_Some in Hlast as [l' ->]. apply elem_of_app. right. by left. }
  destruct (inv_snapshots _ _ Hinv a content Hin) as [Hheap _].
  assert (Ha : a = promiseState w).
  { pose proof (inv_addrs _ _ Hinv) as Haddrs.
    apply (f_equal last) in Haddrs. rewrite fmap_last, Hlast in Haddrs. simpl in Haddrs.
    destruct (promiseState w) as [|p]; [done|].
    rewrite seq_S, last_snoc in Haddrs. by injection Haddrs. }
  split; [done|]. intros key. unfold counter, fields_of. by rewrite <- Ha, Hheap.
Qed.
End TrackerRuns.

(** ** Counting calls and settlements *)

Section Counting.
Import Tracker.
Variable actions : gmap string Action.

Let wa := wrappedActions (tracker actions).1.

Lemma run_app es1 es2 w : run wa (es1 ++ es2) w = run wa es1 w ≫= run wa es2.
Proof.
  revert w. induction es1 as [|e es1 IH]; intros w; simpl; [done|].
  destruct (step wa e w) as [w1|]; simpl; [apply IH|done].
Qed.

Lemma called_app es1 es2 : called (es1 ++ es2) = called es1 ++ called es2.
Proof. unfold called. apply omap_app. Qed.

Lemma filter_agree {A} (P Q : A → Prop) `{∀ x, Decision (P x)} `{∀ x, Decision (Q x)}
    (l : list A) :
  (∀ x, x ∈ l → P x ↔ Q x) → filter P l = filter Q l.
Proof.
  induction l as [|x l IH]; intros Hagree; [done|].
  assert (Hx : P x ↔ Q x) by (apply Hagree; by left).
  assert (Hl : filter P l = filter Q l).
  { apply IH. intros y Hy. apply Hagree. by right. }
  destruct (decide (P x)) as [HP|HP].
  - rewrite !filter_cons_True by tauto. by rewrite Hl.
  - rewrite !filter_cons_False by tauto. done.
Qed.

(** Settlements counted against a longer list of calls. *)
Lemma settlements_stable key es more :
  (∀ id o, Settle id o ∈ es → (id < length (called es))%nat) →
  length (filter (λ e, settles key (called es ++ more) e = true) es) = settlements key es.
Proof.
  intros Hids. unfold settlements. f_equal. apply filter_agree.
  intros [k|id o] Hin; simpl; [done|].
  rewrite lookup_app_l by (by apply (Hids id o)). done.
Qed.

Lemma accounted_step es e w w' :
  invariant actions w → accounted es w → step wa e w = Some w' →
  accounted (es ++ [e]) w'.
Proof.
  intros Hinv (Hnext & Hframes & Hids & Hcount) Hstep. destruct e as [key|id o].
  - destruct (actions !! key) as [a|] eqn:Ha;
      [|unfold step, wa in Hstep; by rewrite tracker_lookup, Ha in Hstep].
    unfold wa in Hstep. rewrite (step_call actions w key a Hinv Ha) in Hstep.
    injection Hstep as <-. unfold accounted. rewrite called_app. simpl.
    assert (Hfree : frames w !! next w = None).
    { destruct (frames w !! next w) as [k|] eqn:Hk; [|done].
      apply (inv_frames _ _ Hinv) in Hk as [_ Hlt]. lia. }
    split; [rewrite length_app; simpl; lia|]. split; [|split].
    + intros id k [[<- <-]|[Hne Hk]]%lookup_insert_Some.
      * rewrite Hnext. by rewrite lookup_app_r, Nat.sub_diag.
      * apply lookup_app_l_Some. by apply Hframes.
    + intros id o [Hin|Hin%list_elem_of_singleton]%elem_of_app; [|done].
      rewrite length_app. specialize (Hids id o Hin). lia.
    + intros key'. unfold inflight. simpl. rewrite suspended_insert by done.
      unfold settlements, invocations. rewrite called_app. simpl.
      rewrite !filter_app, !length_app, settlements_stable by done.
      specialize (Hcount key'). unfold inflight, invocations in Hcount.
      destruct (decide (key = key')) as [->|Hne].
      * rewrite (filter_cons_True (λ k, k = key')) by done. simpl. lia.
      * rewrite (filter_cons_False (λ k, k = key')) by done. simpl. lia.
  - destruct (frames w !! id) as [key|] eqn:Hframe;
      [|unfold step in Hstep; by rewrite Hframe in Hstep].
    unfold wa in Hstep. rewrite (step_settle actions w id key o Hinv Hframe) in Hstep.
    injection Hstep as <-. unfold accounted. rewrite called_app. simpl.
    rewrite app_nil_r.
    assert (Hid : called es !! id = Some key) by (by apply Hframes).
    split; [done|]. split; [|split].
    + intros id' k [Hne Hk]%lookup_delete_Some. by apply Hframes.
    + intros id' o' [Hin|Hin%list_elem_of_singleton]%elem_of_app; [by apply (Hids id' o')|].
      injection Hin as -> _. by apply lookup_lt_Some in Hid.
    + intros key'. unfold inflight. simpl.
      rewrite (suspended_delete key' id key) by done.
      pose proof (suspended_positive key id (frames w) Hframe).
      unfold settlements, invocations. rewrite called_app. simpl. rewrite app_nil_r.
      rewrite filter_app, length_app.
      specialize (Hcount key'). unfold inflight, settlements, invocations in Hcount.
      destruct (decide (key = key')) as [<-|Hne].
      * rewrite (filter_cons_True _ (Settle id o)) by (simpl; by rewrite bool_decide_eq_true).
        simpl. lia.
      * rewrite (filter_cons_False _ (Settle id o)).
        -- simpl. lia.
        -- simpl. rewrite bool_decide_eq_true. congruence.
Qed.

Lemma accounted_run es :
  ∀ w, run wa es (tracker actions).2 = Some w → accounted es w.
Proof.
  induction es as [|e es IH] using rev_ind; intros w.
  - simpl. intros [= <-].
    pose proof (tracker_spec actions) as Hspec.
    destruct (tracker actions) as [t w0]. simpl.
    destruct Hspec as (_ & _ & _ & _ & _ & Hfr & Hnext & _).
    split; [done|]. split; [intros id k; by rewrite Hfr, lookup_empty|].
    split; [by intros id o ?%elem_of_nil|].
    intros key. unfold inflight. by rewrite Hfr, suspended_empty.
  - rewrite run_app.
    destruct (run wa es (tracker actions).2) as [w1|] eqn:Hrun; simpl; [|done].
    destruct (step wa e w1) as [w2|] eqn:Hstep; simpl; [|done].
    intros [= <-]. apply (accounted_step es e w1); [|by apply IH|done].
    by apply (reachable_invariant actions es).
Qed.
End Counting.

(** ** Claims on the tracker *)

Section TrackerClaims.
Import Tracker.

(** Claim C2.  [handleChange] adds one to the counter of its action on
    [pending] and subtracts one on [resolved] and on [rejected], below
    zero too.  In every world the tracker reaches, the counter of an action
    of the mapping is the number of its suspended calls, which is the
    number of its calls minus the number of those that have settled; so it
    is 0 when all have settled.  A call raises it by one and a
    settlement lowers it by one. *)
Theorem C2_counters (actions : gmap string Action) (es : list event)
    (w : world) (key : string) :
  let wa := wrappedActions (tracker actions).1 in
  run wa es (tracker actions).2 = Some w →
  is_Some (actions !! key) →
  (∀ w0 z, counter key w0 = Some (Int z) →
     counter key (handleChange key pending w0) = Some (Int (z + 1)) ∧
     counter key (handleChange key resolved w0) = Some (Int (z - 1)) ∧
     counter key (handleChange key rejected w0) = Some (Int (z - 1))) ∧
  counter key w = Some (Int (Z.of_nat (inflight key w))) ∧
  (inflight key w + settlements key es = invocations key es)%nat ∧
  (settlements key es = invocations key es → counter key w = Some (Int 0)) ∧
  (∃ w', step wa (Call key) w = Some w' ∧
         counter key w' = Some (Int (Z.of_nat (inflight key w) + 1))) ∧
  (∀ id o, frames w !! id = Some key →
     ∃ w', step wa (Settle id o) w = Some w' ∧
           counter key w' = Some (Int (Z.of_nat (inflight key w) - 1))).
Proof.
  intros wa Hrun [a Ha].
  pose proof (reachable_invariant actions es w Hrun) as Hinv.
  destruct (accounted_run actions es w Hrun) as (_ & _ & _ & Hcount).
  assert (Hc : counter key w = Some (Int (Z.of_nat (inflight key w))))
    by (by rewrite (inv_counters _ _ Hinv), Ha).
  split; [|split; [done|split; [done|split; [|split]]]].
  - intros w0 z Hz. rewrite !handleChange_counter, !decide_True, Hz by done. done.
  - intros Hall. rewrite Hc. specialize (Hcount key).
    assert (inflight key w = 0%nat) as -> by lia. done.
  - unfold wa. rewrite (step_call actions w key a Hinv Ha). eexists. split; [done|].
    change (counter key (handleChange key pending w)
            = Some (Int (Z.of_nat (inflight key w) + 1))).
    by rewrite handleChange_counter, decide_True, Hc.
  - intros id o Hframe. unfold wa. rewrite (step_settle actions w id key o Hinv Hframe).
    eexists. split; [done|].
    change (counter key (handleChange key (phase_of o) w)
            = Some (Int (Z.of_nat (inflight key w) - 1))).
    rewrite handleChange_counter, decide_True, Hc by done. by destruct o.
Qed.

(** Claim C8.  Every step of the tracker, a call or a settlement, hands
    one object to the client's callback, so there are as many as events.
    The object is allocated by that step, has exactly the action names as
    fields and holds the counters as they are after the step.  The objects
    handed over have different addresses, none is the initial state
    object, and each of them, as well as the initial state object, still
    has the fields it had when handed over. *)
Theorem C8_snapshots (actions : gmap string Action) (es : list event) (w : world) :
  let t := (tracker actions).1 in
  run (wrappedActions t) es (tracker actions).2 = Some w →
  let delivered := snapshots (trace w) in
  length delivered = length es ∧
  NoDup delivered.*1 ∧
  (initialState t ∉ delivered.*1) ∧
  heap w !! initialState t = Some ((λ _, Int 0) <$> actions) ∧
  (∀ a content, (a, content) ∈ delivered →
     heap w !! a = Some content ∧ dom content = dom actions) ∧
  (∀ a content, last delivered = Some (a, content) →
     ∀ key, content !! key = counter key w) ∧
  ∀ e w', step (wrappedActions t) e w = Some w' →
    ∃ a content,
      snapshots (trace w') = delivered ++ [(a, content)] ∧
      heap w !! a = None ∧
      dom content = dom actions ∧
      (∀ key, content !! key = counter key w') ∧
      ∀ b, b ≠ a → heap w' !! b = heap w !! b.
Proof.
  intros t Hrun delivered.
  pose proof (reachable_invariant actions es w Hrun) as Hinv.
  pose proof (run_length actions es _ w (tracker_invariant actions) Hrun) as Hlen.
  pose proof (inv_addrs _ _ Hinv) as Haddrs.
  assert (Ht : initialState t = 0%nat ∧ promiseState (tracker actions).2 = 0%nat).
  { subst t. pose proof (tracker_spec actions) as Hspec.
    destruct (tracker actions) as [t0 w0]. simpl. by destruct Hspec as (-> & _ & _ & _ & -> & _). }
  destruct Ht as [Ht Hp0]. rewrite Ht. rewrite Hp0 in Hlen. simpl in Hlen.
  subst delivered. repeat split.
  - rewrite <- (length_fmap fst), Haddrs, length_seq. done.
  - rewrite Haddrs. apply NoDup_seq.
  - rewrite Haddrs, elem_of_seq. lia.
  - apply (inv_initial _ _ Hinv).
  - by apply (inv_snapshots _ _ Hinv).
  - by apply (inv_snapshots _ _ Hinv a).
  - intros a content Hlast. by apply (invariant_last actions w a content Hinv).
  - intros e w' Hstep.
    destruct (step_snapshot actions e w w' Hinv Hstep)
      as (a & content & Hsnap & Hfresh & _ & Hcur & Hkeep).
    exists a, content. repeat split; try done.
    pose proof (step_invariant actions e w w' Hinv Hstep) as Hinv'.
    apply (inv_snapshots _ _ Hinv' a content).
    rewrite Hsnap. apply elem_of_app. right. by left.
Qed.

(** Claim C9.  One phase event of action [name] hands over an object in
    which every other field is as in the object [promiseState] referred to
    before; the field [name] has moved by one when it held a number. *)
Theorem C9_other_counters (name : string) (state : PromiseState) (w : world) :
  ∃ a content,
    trace (handleChange name state w) = trace w ++ [Snapshot a content] ∧
    fields_of (promiseState (handleChange name state w)) (handleChange name state w)
      = content ∧
    (∀ key, key ≠ name → content !! key = fields_of (promiseState w) w !! key) ∧
    ∀ z, fields_of (promiseState w) w !! name = Some (Int z) →
         content !! name = Some (Int (z + delta state)).
Proof.
  rewrite handleChange_spec. simpl. eexists _, _. split; [done|]. split; [|split].
  - unfold fields_of at 1. simpl. by rewrite lookup_insert_eq.
  - intros key Hne. by rewrite lookup_insert_ne.
  - intros z Hz. by rewrite lookup_insert_eq, Hz.
Qed.

(** Claim C10.  The [initialState] returned by [trackActions] has exactly
    the keys of the mapping as fields, each holding 0. *)
Theorem C10_initial_state (actions : gmap string Action) :
  let t := (tracker actions).1 in
  let w := (tracker actions).2 in
  dom (fields_of (initialState t) w) = dom actions ∧
  ∀ key, key ∈ dom actions → fields_of (initialState t) w !! key = Some (Int 0).
Proof.
  pose proof (tracker_spec actions) as Hspec.
  destruct (tracker actions) as [t w]. simpl.
  destruct Hspec as (-> & _ & Hheap & _).
  unfold fields_of. rewrite Hheap, lookup_singleton_eq. simpl. split.
  - apply dom_fmap_L.
  - intros key [a Ha]%elem_of_dom. by rewrite lookup_fmap, Ha.
Qed.
End TrackerClaims.

(** ** Examples on the tracker *)

Section TrackerExamples.
Import Tracker.

(** Two actions; [increment] is called twice and [reset] once, then the
    first [increment] call is fulfilled and the [reset] call rejected. *)
Lemma C2_witness :
  let actions : gmap string Action := {[ "increment" := 0%nat; "reset" := 1%nat ]} in
  let es := [Call "increment"; Call "increment"; Call "reset";
             Settle 0 (Fulfilled (VObj 5)); Settle 2 (Rejected (VStr "no"))] in
  match run (wrappedActions (tracker actions).1) es (tracker actions).2 with
  | Some w =>
    counter "increment" w = Some (Int 1) ∧ inflight "increment" w = 1%nat ∧
    counter "reset" w = Some (Int 0) ∧ inflight "reset" w = 0%nat
  | None => False
  end.
Proof.
  intros actions es.
  destruct (run (wrappedActions (tracker actions).1) es (tracker actions).2)
    as [w|] eqn:Hrun; [|vm_compute in Hrun; discriminate Hrun].
  destruct (C2_counters actions es w "increment" Hrun) as (_ & Hinc & Hninc & _).
  { exists 0%nat. vm_compute. reflexivity. }
  destruct (C2_counters actions es w "reset" Hrun) as (_ & _ & Hnreset & Hreset & _).
  { exists 1%nat. vm_compute. reflexivity. }
  assert (Hs1 : settlements "increment" es = 1%nat) by (vm_compute; reflexivity).
  assert (Hi1 : invocations "increment" es = 2%nat) by (vm_compute; reflexivity).
  assert (Hs0 : settlements "reset" es = 1%nat) by (vm_compute; reflexivity).
  assert (Hi0 : invocations "reset" es = 1%nat) by (vm_compute; reflexivity).
  assert (H1 : inflight "increment" w = 1%nat) by lia.
  assert (H0 : inflight "reset" w = 0%nat) by lia.
  split; [rewrite Hinc, H1; reflexivity|]. 
  split; [exact H1|]. split; [|exact H0].
  apply Hreset. rewrite Hs0, Hi0. reflexivity.
Defined.

(** The same events seen by a client callback of [wrapActions], and one
    more call. *)
Lemma C3_witness :
  let actions : gmap string Action := {[ "increment" := 0%nat; "reset" := 1%nat ]} in
  let es := [Call "increment"; Call "reset"; Settle 0 (Fulfilled (VObj 5))] in
  let wa := (wrapActions actions notify empty_world).1 in
  match run wa es (wrapActions actions notify empty_world).2 with
  | Some w =>
    trace w = [Changed "increment" pending; Started 0; Changed "reset" pending; Started 1;
               Changed "increment" resolved; Settled 0 (Fulfilled (VObj 5))] ∧
    (∃ w', step wa (Call "reset") w = Some w' ∧
           trace w' = trace w ++ [Changed "reset" pending; Started 1]) ∧
    ∃ w', step wa (Settle 1 (Rejected (VStr "no"))) w = Some w' ∧
          trace w' = trace w ++ [Changed "reset" rejected; Settled 1 (Rejected (VStr "no"))]
  | None => False
  end.
Proof.
  intros actions es wa.
  destruct (run wa es (wrapActions actions notify empty_world).2)
    as [w|] eqn:Hrun; [|vm_compute in Hrun; discriminate Hrun].
  destruct (C3_wrapped_call_phases actions es w "reset" 1 Hrun) as [Hcall Hsettle].
  { vm_compute. reflexivity. }
  assert (Htr : trace <$> run wa es (wrapActions actions notify empty_world).2 = Some [Changed "increment" pending; Started 0; Changed "reset" pending; Started 1;
               Changed "increment" resolved; Settled 0 (Fulfilled (VObj 5))]) by (vm_compute; reflexivity).
  assert (Hfr : (λ w, frames w !! 1%nat) <$> run wa es (wrapActions actions notify empty_world).2 = Some (Some "reset")) by (vm_compute; reflexivity).
  rewrite Hrun in Htr, Hfr. 
  injection Htr as Htr. injection Hfr as Hfr.
  split; [exact Htr|]. split.
  - destruct Hcall as (w' & Hstep & Htrace & _). exists w'. split; assumption.
  - destruct (Hsettle 1%nat) as [_ Hrej]; [exact Hfr|].
    apply (Hrej (VStr "no")).
Defined.

(** [increment] is called, its wrapper is unsubscribed, and then the
    suspended call is fulfilled and [reset] is called: the callback hears
    of [reset] only, and the [increment] call settles as its underlying
    promise did. *)
Lemma C7_witness :
  let actions : gmap string Action := {[ "increment" := 0%nat; "reset" := 1%nat ]} in
  let ws := wrappers actions notify empty_world in
  let es1 := [Ev (Call "increment")] in
  let es2 := [Ev (Settle 0 (Fulfilled (VObj 5))); Ev (Call "reset")] in
  match wrun ws es1 (wrapActions actions notify empty_world).2 with
  | Some w1 =>
    match wrun ws (Unsubscribe "increment" :: es2) w1 with
    | Some w2 =>
      trace w1 = [Changed "increment" pending; Started 0] ∧
      trace w2 = [Changed "increment" pending; Started 0;
                  Settled 0 (Fulfilled (VObj 5)); Changed "reset" pending; Started 1] ∧
      (∃ tr, trace w2 = trace w1 ++ tr ∧ ∀ state, Changed "increment" state ∉ tr) ∧
      ∃ w', wstep ws (Ev (Call "increment")) w2 = Some w' ∧
            trace w' = trace w2 ++ [Started 0]
    | None => False
    end
  | None => False
  end.
Proof.
  intros actions ws es1 es2.
  assert (Htr1 : trace <$> wrun ws es1 (wrapActions actions notify empty_world).2
                 = Some [Changed "increment" pending; Started 0])
    by (vm_compute; reflexivity).
  assert (Htr2 : trace <$> (wrun ws es1 (wrapActions actions notify empty_world).2
                            ≫= wrun ws (Unsubscribe "increment" :: es2))
                 = Some [Changed "increment" pending; Started 0;
                         Settled 0 (Fulfilled (VObj 5)); Changed "reset" pending; Started 1])
    by (vm_compute; reflexivity).
  destruct (wrun ws es1 (wrapActions actions notify empty_world).2)
    as [w1|] eqn:Hrun1; [|discriminate Htr1].
  change (trace <$> wrun ws (Unsubscribe "increment" :: es2) w1
          = Some [Changed "increment" pending; Started 0;
                  Settled 0 (Fulfilled (VObj 5)); Changed "reset" pending; Started 1])
    in Htr2.
  destruct (wrun ws (Unsubscribe "increment" :: es2) w1)
    as [w2|] eqn:Hrun2; [|discriminate Htr2].
  injection Htr1 as Htr1. injection Htr2 as Htr2.
  destruct (C7_unsubscribed_wrapper actions es1 es2 w1 w2 "increment" 0)
    as (_ & _ & Hquiet & (w' & Hstep & Htrace & _) & _ & _).
  { vm_compute. reflexivity. }
  { exact Hrun1. }
  { exact Hrun2. }
  split; [exact Htr1|]. split; [exact Htr2|].
  split; [exact Hquiet|]. exists w'. split; assumption.
Defined.

(** Three events hand over three objects, at three new addresses. *)
Lemma C8_witness :
  let actions : gmap string Action := {[ "increment" := 0%nat; "reset" := 1%nat ]} in
  let es := [Call "increment"; Call "reset"; Settle 0 (Fulfilled (VObj 5))] in
  match run (wrappedActions (tracker actions).1) es (tracker actions).2 with
  | Some w =>
    (snapshots (trace w)).*1 = [1; 2; 3]%nat ∧
    map_to_list <$> (snapshots (trace w)).*2
      = [[("increment", Int 1); ("reset", Int 0)];
         [("increment", Int 1); ("reset", Int 1)];
         [("increment", Int 0); ("reset", Int 1)]] ∧
    length (snapshots (trace w)) = 3%nat ∧
    NoDup (snapshots (trace w)).*1 ∧
    ∀ a content, (a, content) ∈ snapshots (trace w) → heap w !! a = Some content
  | None => False
  end.
Proof.
  intros actions es.
  assert (Haddrs : (λ w, (snapshots (trace w)).*1)
                     <$> run (wrappedActions (tracker actions).1) es (tracker actions).2
                   = Some [1; 2; 3]%nat) by (vm_compute; reflexivity).
  assert (Hfields : (λ w, map_to_list <$> (snapshots (trace w)).*2)
                      <$> run (wrappedActions (tracker actions).1) es (tracker actions).2
                    = Some [[("increment", Int 1); ("reset", Int 0)];
                            [("increment", Int 1); ("reset", Int 1)];
                            [("increment", Int 0); ("reset", Int 1)]])
    by (vm_compute; reflexivity).
  destruct (run (wrappedActions (tracker actions).1) es (tracker actions).2)
    as [w|] eqn:Hrun; [|discriminate Haddrs].
  injection Haddrs as Haddrs. injection Hfields as Hfields.
  destruct (C8_snapshots actions es w Hrun) as (Hlen & Hnodup & _ & _ & Hkept & _).
  split; [exact Haddrs|]. split; [exact Hfields|].
  split; [exact Hlen|]. split; [exact Hnodup|].
  intros a content Hin. apply (Hkept a content Hin).
Defined.

(** A [pending] event of [increment] right after [trackActions]. *)
Lemma C9_witness :
  let actions : gmap string Action := {[ "increment" := 0%nat; "reset" := 1%nat ]} in
  let w := (tracker actions).2 in
  ∃ a content,
    trace (handleChange "increment" pending w) = trace w ++ [Snapshot a content] ∧
    content !! "reset" = Some (Int 0) ∧ content !! "increment" = Some (Int 1).
Proof.
  intros actions w.
  destruct (C9_other_counters "increment" pending w) as (a & content & Htrace & _ & Hother & Hname).
  exists a, content. split; [exact Htrace|]. split.
  - rewrite (Hother "reset") by discriminate. vm_compute. reflexivity.
  - apply (Hname 0%Z). vm_compute. reflexivity.
Defined.

Lemma C10_witness :
  let actions : gmap string Action := {[ "increment" := 0%nat; "reset" := 1%nat ]} in
  let t := (tracker actions).1 in
  let w := (tracker actions).2 in
  fields_of (initialState t) w !! "increment" = Some (Int 0) ∧
  fields_of (initialState t) w !! "reset" = Some (Int 0) ∧
  dom (fields_of (initialState t) w) = dom actions.
Proof.
  intros actions t w.
  destruct (C10_initial_state actions) as [Hdom Hzero].
  split; [|split].
  - apply Hzero. apply elem_of_dom. exists 0%nat. vm_compute. reflexivity.
  - apply Hzero. apply elem_of_dom. exists 1%nat. vm_compute. reflexivity.
  - exact Hdom.
Defined.
End TrackerExamples.

(** * Further properties *)

(** ** The store binding and runs of the repository *)

Section StoreRuns.
Import Repo RepoRuns.
Variable acts : gmap string Action.

(** What one step does to the state and to the calls made to [l]. *)
Lemma step_applies e w w' r l :
  step (storifyActions acts) e w = Some (w', r) →
  state w' = default (state w) (applies e) ∧
  observed l (calls w')
  = observed l (calls w) ++
    match applies e with
    | Some v => replicate (registrations l (listeners w)) (v, state w)
    | None => []
    end.
Proof.
  destruct e as [v|l'|l'|c sel eq|c|c|key|id o]; simpl.
  - intros [= <- <-]. destruct (setState_spec v w) as (-> & _).
    by rewrite setState_observed.
  - intros [= <- <-]. simpl. by rewrite app_nil_r.
  - intros [= <- <-]. simpl. by rewrite app_nil_r.
  - intros [= <- <-]. unfold render. rewrite app_nil_r. by destruct (hooks w !! c).
  - intros [= <- <-]. simpl. by rewrite app_nil_r.
  - intros [= <- <-]. simpl. by rewrite app_nil_r.
  - rewrite storifyActions_lookup.
    destruct (acts !! key) as [a|]; simpl; [|done].
    intros [= <- <-]. simpl. by rewrite app_nil_r.
  - destruct (frames w !! id) as [key|]; simpl; [|done].
    rewrite storifyActions_lookup.
    destruct (acts !! key) as [a|]; simpl; [|done].
    destruct o as [v|err]; intros [= <- <-].
    + destruct (setState_spec v (set_frames (delete id (frames w)) w)) as (-> & _).
      by rewrite setState_observed.
    + simpl. by rewrite app_nil_r.
Qed.

Lemma transitions_cons v0 v vs : transitions v0 (v :: vs) = (v, v0) :: transitions v vs.
Proof. done. Qed.

Lemma run_applied es w w' :
  run (storifyActions acts) es w = Some w' →
  state w' = default (state w) (last (applied es)) ∧
  ∀ l, forallb (λ e, negb (touches l e)) es = true →
       registrations l (listeners w) = 1%nat →
       observed l (calls w') = observed l (calls w) ++ transitions (state w) (applied es).
Proof.
  revert w. induction es as [|e es IH]; intros w; simpl.
  - intros [= <-]. split; [done|]. intros l _ _. unfold transitions. simpl.
    by rewrite app_nil_r.
  - destruct (step (storifyActions acts) e w) as [[w1 r]|] eqn:Hstep; simpl; [|done].
    intros Hrun. destruct (IH w1 Hrun) as [Hstate Hobs].
    split.
    + rewrite Hstate. destruct (step_applies e w w1 r (Callback 0) Hstep) as [-> _].
      unfold applied. simpl. destruct (applies e) as [v|]; simpl; [|done].
      rewrite last_cons. by destruct (last (omap applies es)).
    + intros l [He Hes]%andb_prop Hreg. apply negb_true_iff in He.
      destruct (step_listener acts e w w1 r l Hstep) as (_ & Hkeep & _).
      destruct (step_applies e w w1 r l Hstep) as [Hst1 Hobs1].
      rewrite (Hobs l Hes) by (by rewrite Hkeep). rewrite Hobs1, Hst1, Hreg.
      unfold applied. simpl. destruct (applies e) as [v|]; simpl.
      * by rewrite transitions_cons, <- app_assoc.
      * by rewrite app_nil_r.
Qed.
End StoreRuns.

Section StoreExtras.
Import Repo RepoRuns.

(** Property X1.  [createStore] keeps the repository it is given and
    binds exactly the keys of the mapping, each to the [storifyAction] of
    its own action; an empty mapping gives a store without actions. *)
Theorem X1_createStore_keys (repo : world) (acts : gmap string Action) :
  repository (createStore repo acts) = repo ∧
  dom (actions (createStore repo acts)) = dom acts ∧
  (∀ key, actions (createStore repo acts) !! key = storifyAction <$> acts !! key) ∧
  actions (createStore repo ∅) = ∅.
Proof.
  split; [done|]. simpl. split; [|split].
  - apply set_eq. intros key. rewrite !elem_of_dom, storifyActions_lookup.
    by rewrite fmap_is_Some.
  - apply storifyActions_lookup.
  - apply map_eq. intros key. by rewrite storifyActions_lookup, !lookup_empty.
Qed.

(** Property X2.  Whatever mix of direct [setState] calls, store-bound
    calls and settlements, registrations and renders happens, the state
    is the value applied last, a value being applied by a [setState] call
    or by a store-bound call whose action resolved (so of two calls in
    flight the one that resolves last wins); and a listener whose single
    registration stays sees each applied value once, in order, with the
    value applied before it. *)
Theorem X2_last_applied_wins (acts : gmap string Action) (es : list event)
    (w w' : world) :
  run (storifyActions acts) es w = Some w' →
  state w' = default (state w) (last (applied es)) ∧
  ∀ l, forallb (λ e, negb (touches l e)) es = true →
       registrations l (listeners w) = 1%nat →
       observed l (calls w') = observed l (calls w) ++ transitions (state w) (applied es).
Proof. apply run_applied. Qed.


Lemma unsubscribe_onChange l w : unsubscribe l (onChange l w).1 = w.
Proof.
  unfold unsubscribe, onChange. simpl. rewrite off_on.
  by destruct w.
Qed.

Lemma onChange_listeners l w : listeners (onChange l w).1 = on l (listeners w).
Proof. done. Qed.

Lemma unsubscribe_listeners l w : listeners (unsubscribe l w) = off l (listeners w).
Proof. done. Qed.

Lemma subscribe_times_listeners n l w :
  listeners (subscribe_times n l w) = listeners w ++ replicate n l.
Proof.
  unfold subscribe_times. induction n as [|n IH].
  - simpl. by rewrite app_nil_r.
  - rewrite Nat.iter_succ, onChange_listeners, IH. unfold on. rewrite <- app_assoc. f_equal.
    symmetry. apply replicate_S_end.
Qed.

Lemma unsubscribe_times_registrations m l w :
  registrations l (listeners (unsubscribe_times m l w))
  = (registrations l (listeners w) - m)%nat ∧
  filter (λ x, x ≠ l) (listeners (unsubscribe_times m l w))
  = filter (λ x, x ≠ l) (listeners w).
Proof.
  unfold unsubscribe_times. induction m as [|m [IH1 IH2]].
  - simpl. split; [lia|done].
  - rewrite Nat.iter_succ, unsubscribe_listeners.
    rewrite off_registrations, off_filter, IH1, IH2. split; [lia|done].
Qed.

Lemma filter_others_replicate n (l : listener) :
  filter (λ x, x ≠ l) (replicate n l) = [].
Proof.
  induction n as [|n IH]; simpl; [done|].
  rewrite filter_cons_False by (intros ?; done). exact IH.
Qed.

Lemma registrations_replicate n l : registrations l (replicate n l) = n.
Proof.
  unfold registrations. induction n as [|n IH]; simpl; [done|].
  rewrite filter_cons_True by done. simpl. by rewrite IH.
Qed.

(** Property X3.  Registrations of one listener function are counted:
    after [n] more [onChange] calls with it and [m] calls of a closure
    returned for it, it has its earlier registrations plus [n] minus [m]
    (none below zero), a call beyond the last registration doing nothing;
    the registrations of other listeners keep their order; and as many
    closure calls as [onChange] calls give back the repository as it
    was. *)
Theorem X3_registrations_counted (l : listener) (n m : nat) (w : world) :
  registrations l (listeners (unsubscribe_times m l (subscribe_times n l w)))
  = ((registrations l (listeners w) + n) - m)%nat ∧
  filter (λ x, x ≠ l) (listeners (unsubscribe_times m l (subscribe_times n l w)))
  = filter (λ x, x ≠ l) (listeners w) ∧
  unsubscribe_times n l (subscribe_times n l w) = w.
Proof.
  destruct (unsubscribe_times_registrations m l (subscribe_times n l w)) as [-> ->].
  rewrite subscribe_times_listeners, registrations_app, registrations_replicate.
  split; [done|]. split.
  - by rewrite filter_app, filter_others_replicate, app_nil_r.
  - unfold unsubscribe_times, subscribe_times. revert w.
    induction n as [|n IH]; intros w; [done|].
    rewrite Nat.iter_succ_r, (Nat.iter_succ n (λ w, (onChange l w).1)).
    cbv beta. rewrite unsubscribe_onChange. apply IH.
Qed.
End StoreExtras.

(** ** The selector binding over time *)

Section SelectorRuns.
Import Repo RepoRuns.
Variable acts : gmap string Action.

Lemma setState_hook_unregistered v w c :
  registrations (Refresh c) (listeners w) = 0%nat →
  hooks (setState v w) !! c = hooks w !! c.
Proof.
  intros Hreg%registrations_0. unfold setState, emit. simpl.
  by rewrite notify_others_hook.
Qed.

(** An instance whose [refresh] is not registered is not touched. *)
Lemma step_hook_unregistered e w w' r c h :
  step (storifyActions acts) e w = Some (w', r) →
  registrations (Refresh c) (listeners w) = 0%nat →
  hooks w !! c = Some h → hooks w' !! c = Some h.
Proof.
  intros Hstep Hreg Hh.
  destruct e as [v|l'|l'|c' sel eq|c'|c'|key|id o]; simpl in Hstep.
  - injection Hstep as <- <-. by rewrite setState_hook_unregistered.
  - by injection Hstep as <- <-.
  - by injection Hstep as <- <-.
  - injection Hstep as <- <-. unfold render.
    destruct (hooks w !! c') as [h'|] eqn:Hc'; [done|]. simpl.
    rewrite lookup_insert_ne; [done|]. intros ->. congruence.
  - by injection Hstep as <- <-.
  - by injection Hstep as <- <-.
  - rewrite storifyActions_lookup in Hstep.
    destruct (acts !! key) as [a|]; simpl in Hstep; [|done]. by injection Hstep as <- <-.
  - destruct (frames w !! id) as [key|]; simpl in Hstep; [|done].
    rewrite storifyActions_lookup in Hstep.
    destruct (acts !! key) as [a|]; simpl in Hstep; [|done].
    destruct o as [v|err]; injection Hstep as <- <-; [|done].
    by rewrite setState_hook_unregistered.
Qed.

Lemma run_hook_unregistered es w w' c h :
  run (storifyActions acts) es w = Some w' →
  forallb (λ e, negb (registers (Refresh c) e)) es = true →
  registrations (Refresh c) (listeners w) = 0%nat →
  hooks w !! c = Some h →
  hooks w' !! c = Some h ∧ registrations (Refresh c) (listeners w') = 0%nat.
Proof.
  revert w. induction es as [|e es IH]; intros w; simpl.
  - by intros [= <-].
  - destruct (step (storifyActions acts) e w) as [[w1 r]|] eqn:Hstep; simpl; [|done].
    intros Hrun [He Hes]%andb_prop Hreg Hh. apply negb_true_iff in He.
    destruct (step_listener acts e w w1 r (Refresh c) Hstep) as (Hkeep & _ & _).
    apply (IH w1 Hrun Hes); [by apply Hkeep|].
    by apply (step_hook_unregistered e w w1 r).
Qed.

Lemma strict_equals_eq a b : strict_equals a b = true → a = b.
Proof.
  destruct a, b; simpl; try done; by intros ?%bool_decide_eq_true.
Qed.

Lemma strict_equals_true a b : strict_equals a b = true ↔ a = b ∧ a ≠ VNaN.
Proof.
  split.
  - intros Heq. split; [by apply strict_equals_eq|]. intros ->. by destruct b.
  - intros [<- Hnan]. destruct a; simpl; try done; by apply bool_decide_eq_true.
Qed.

(** One step seen by a mounted instance using [isEqualRef] whose cache
    is the selection of the current state. *)
Lemma step_coherent e w w' r c h :
  step (storifyActions acts) e w = Some (w', r) →
  touches (Refresh c) e = false →
  hooks w !! c = Some h → equalityFn h = isEqualRef →
  registrations (Refresh c) (listeners w) = 1%nat →
  current h = selector h (state w) →
  ∃ h', hooks w' !! c = Some h' ∧ selector h' = selector h ∧
        equalityFn h' = isEqualRef ∧ current h' = selector h (state w') ∧
        (renders h ≤ renders h' ≤ renders h + length (applied [e]))%nat.
Proof.
  intros Hstep Htouch Hh Heq Hreg Hcur.
  assert (Hset : ∀ v w0, hooks w0 !! c = Some h →
            registrations (Refresh c) (listeners w0) = 1%nat →
            ∃ h', hooks (setState v w0) !! c = Some h' ∧ selector h' = selector h ∧
                  equalityFn h' = isEqualRef ∧ current h' = selector h v ∧
                  (renders h ≤ renders h' ≤ renders h + 1)%nat).
  { intros v w0 Hh0 Hreg0. rewrite (setState_hook w0 c h v Hh0 Hreg0), Heq.
    unfold isEqualRef. destruct (strict_equals _ _) eqn:Hs.
    - apply strict_equals_eq in Hs. exists h. repeat split; try done; lia.
    - eexists. split; [done|]. simpl. repeat split; try done; lia. }
  assert (Hsame : hooks w' !! c = Some h → state w' = state w → applies e = None →
            ∃ h', hooks w' !! c = Some h' ∧ selector h' = selector h ∧
                  equalityFn h' = isEqualRef ∧ current h' = selector h (state w') ∧
                  (renders h ≤ renders h' ≤ renders h + length (applied [e]))%nat).
  { intros Hh' Hst Happ. exists h. rewrite Hst. unfold applied. simpl. rewrite Happ.
    simpl. repeat split; try done; lia. }
  destruct e as [v|l'|l'|c' sel eq|c'|c'|key|id o]; simpl in Hstep.
  - injection Hstep as <- <-.
    destruct (Hset v w Hh Hreg) as (h' & ? & ? & ? & ? & ?). exists h'.
    destruct (setState_spec v w) as (-> & _). done.
  - injection Hstep as <- <-. by apply Hsame.
  - injection Hstep as <- <-. by apply Hsame.
  - injection Hstep as <- <-. apply Hsame; [|by unfold render; destruct (hooks w !! c')|done].
    unfold render. destruct (hooks w !! c') as [h'|] eqn:Hc'; [done|]. simpl.
    rewrite lookup_insert_ne; [done|]. intros ->. congruence.
  - injection Hstep as <- <-. by apply Hsame.
  - injection Hstep as <- <-. by apply Hsame.
  - rewrite storifyActions_lookup in Hstep.
    destruct (acts !! key) as [a|]; simpl in Hstep; [|done].
    injection Hstep as <- <-. by apply Hsame.
  - destruct (frames w !! id) as [key|]; simpl in Hstep; [|done].
    rewrite storifyActions_lookup in Hstep.
    destruct (acts !! key) as [a|]; simpl in Hstep; [|done].
    destruct o as [v|err]; injection Hstep as <- <-; [|by apply Hsame].
    destruct (Hset v (set_frames (delete id (frames w)) w) Hh Hreg)
      as (h' & ? & ? & ? & ? & ?). exists h'.
    destruct (setState_spec v (set_frames (delete id (frames w)) w)) as (-> & _). done.
Qed.

Lemma applied_cons e es : length (applied (e :: es)) = (length (applied [e]) + length (applied es))%nat.
Proof. unfold applied. simpl. by destruct (applies e). Qed.

Lemma run_coherent es w w' c h :
  run (storifyActions acts) es w = Some w' →
  forallb (λ e, negb (touches (Refresh c) e)) es = true →
  hooks w !! c = Some h → equalityFn h = isEqualRef →
  registrations (Refresh c) (listeners w) = 1%nat →
  current h = selector h (state w) →
  ∃ h', hooks w' !! c = Some h' ∧ selector h' = selector h ∧
        equalityFn h' = isEqualRef ∧ current h' = selector h (state w') ∧
        (renders h ≤ renders h' ≤ renders h + length (applied es))%nat.
Proof.
  revert w h. induction es as [|e es IH]; intros w h Hrun; simpl in Hrun.
  - injection Hrun as <-. intros _ Hh Heq _ Hcur. exists h. unfold applied. simpl.
    repeat split; try done; lia.
  - destruct (step (storifyActions acts) e w) as [[w1 r]|] eqn:Hstep; simpl in Hrun; [|done].
    intros [He Hes]%andb_prop Hh Heq Hreg Hcur. apply negb_true_iff in He.
    destruct (step_coherent e w w1 r c h Hstep He Hh Heq Hreg Hcur)
      as (h1 & Hh1 & Hsel1 & Heq1 & Hcur1 & Hren1).
    destruct (step_listener acts e w w1 r (Refresh c) Hstep) as (_ & Hkeep & _).
    destruct (IH w1 h1 Hrun Hes Hh1 Heq1) as (h' & Hh' & Hsel' & Heq' & Hcur' & Hren').
    { by rewrite Hkeep. }
    { by rewrite Hsel1. }
    exists h'. rewrite applied_cons. rewrite Hsel1 in *.
    repeat split; try done; lia.
Qed.
End SelectorRuns.

Section SelectorExtras.
Import Repo RepoRuns.

(** Property X4.  Once the cleanup of a [useSelector] instance has run,
    nothing that happens to the repository changes the instance: its
    cache and its [forceRender] count stay as they are, and [refresh]
    stays unregistered, as long as the effect does not run again. *)
Theorem X4_unmounted_instance_untouched (acts : gmap string Action) (c : nat) (h : hook)
    (w w' : world) (es : list event) :
  hooks w !! c = Some h →
  (registrations (Refresh c) (listeners w) ≤ 1)%nat →
  forallb (λ e, negb (registers (Refresh c) e)) es = true →
  run (storifyActions acts) es (cleanup c w) = Some w' →
  hooks w' !! c = Some h ∧ registrations (Refresh c) (listeners w') = 0%nat.
Proof.
  intros Hh Hreg Hes Hrun.
  apply (run_hook_unregistered acts es (cleanup c w) w' c h Hrun Hes); [|done].
  unfold cleanup. simpl. rewrite off_registrations. lia.
Qed.

(** Property X5.  What is applied to the repository between the first
    render of a [useSelector] instance and its effect is missed: when the
    effect has subscribed, the cache still is the selection of the state
    at the first render and [forceRender] was never called, whatever the
    state is by then. *)
Theorem X5_update_before_effect_missed (acts : gmap string Action) (c : nat)
    (sel : value → value) (eq : value → value → bool)
    (w w' : world) (es : list event) :
  hooks w !! c = None →
  registrations (Refresh c) (listeners w) = 0%nat →
  forallb (λ e, negb (registers (Refresh c) e)) es = true →
  run (storifyActions acts) es (render c sel eq w) = Some w' →
  hooks (effect c w') !! c = Some (Hook sel eq (sel (state w)) 0) ∧
  selected c (effect c w') = Some (sel (state w)) ∧
  state (effect c w') = default (state w) (last (applied es)) ∧
  registrations (Refresh c) (listeners (effect c w')) = 1%nat.
Proof.
  intros Hnone Hreg Hes Hrun.
  assert (Hh : hooks (render c sel eq w) !! c = Some (Hook sel eq (sel (state w)) 0)).
  { unfold render. rewrite Hnone. simpl. apply lookup_insert_eq. }
  assert (Hreg1 : registrations (Refresh c) (listeners (render c sel eq w)) = 0%nat).
  { unfold render. by rewrite Hnone. }
  destruct (run_hook_unregistered acts es _ w' c _ Hrun Hes Hreg1 Hh) as [Hh' Hreg'].
  destruct (run_applied acts es _ w' Hrun) as [Hstate _].
  unfold selected, effect. simpl. rewrite Hh'. split; [done|]. split; [done|]. split.
  - rewrite Hstate. unfold render. by rewrite Hnone.
  - unfold on. rewrite registrations_app, Hreg'. unfold registrations.
    by rewrite filter_cons_True.
Qed.

(** Property X6.  With [isEqualRef], an instance whose effect ran right
    after its first render returns the selection of the current state
    after every run of events, as long as it stays mounted; [forceRender]
    was called at most once per value applied. *)
Theorem X6_selection_follows_state (acts : gmap string Action) (c : nat)
    (sel : value → value) (w w' : world) (es : list event) :
  hooks w !! c = None →
  registrations (Refresh c) (listeners w) = 0%nat →
  forallb (λ e, negb (touches (Refresh c) e)) es = true →
  run (storifyActions acts) es (effect c (render c sel isEqualRef w)) = Some w' →
  selected c w' = Some (sel (state w')) ∧
  ∃ h', hooks w' !! c = Some h' ∧ (renders h' ≤ length (applied es))%nat.
Proof.
  intros Hnone Hreg Hes Hrun.
  destruct (mount_registered c sel isEqualRef w Hnone) as [Hh Hreg1].
  { by apply registrations_0. }
  destruct (run_coherent acts es _ w' c _ Hrun Hes Hh eq_refl Hreg1)
    as (h' & Hh' & _ & _ & Hcur & Hren).
  { unfold effect, render. by rewrite Hnone. }
  simpl in *. unfold selected. rewrite Hh'. simpl. split; [by rewrite Hcur|].
  exists h'. split; [done|]. lia.
Qed.

(** Property X7.  [isEqualRef] holds of two values exactly when they are
    the same value and not [NaN]; so an instance using it whose selector
    gives [NaN] calls [forceRender] on every [setState], also one that
    changes nothing. *)
Theorem X7_NaN_selection_always_rerenders (w : world) (c : nat) (h : hook) (v : value) :
  (∀ a b, isEqualRef a b = true ↔ a = b ∧ a ≠ VNaN) ∧
  (hooks w !! c = Some h →
   equalityFn h = isEqualRef →
   registrations (Refresh c) (listeners w) = 1%nat →
   selector h v = VNaN →
   ∃ h', hooks (setState v w) !! c = Some h' ∧
         current h' = VNaN ∧ renders h' = S (renders h)).
Proof.
  split; [apply strict_equals_true|].
  intros Hh Heq Hreg Hnan.
  rewrite (setState_hook w c h v Hh Hreg), Heq, Hnan. simpl.
  eexists. split; [done|]. done.
Qed.
End SelectorExtras.

Section RepositoryExtraExamples.
Import Repo RepoRuns.

(** A listener during a direct call, a store-bound call that resolves and
    one that fails. *)
Lemma X2_witness :
  let acts : gmap string Action := {[ "reset" := 0%nat ]} in
  let w := (onChange (Callback 0) (createRepository (VNum 0))).1 in
  let es := [Call "reset"; SetState (VNum 1); Call "reset";
             Settle 1 (Rejected (VStr "no")); Settle 0 (Fulfilled (VNum 7))] in
  match run (storifyActions acts) es w with
  | Some w' =>
    state w' = VNum 7 ∧
    observed (Callback 0) (calls w') = [(VNum 1, VNum 0); (VNum 7, VNum 1)]
  | None => False
  end.
Proof.
  intros acts w es.
  assert (Hsome : is_Some (state <$> run (storifyActions acts) es w))
    by (vm_compute; eexists; reflexivity).
  destruct (run (storifyActions acts) es w) as [w'|] eqn:Hrun;
    [|by destruct Hsome as [? [=]]].
  destruct (X2_last_applied_wins acts es w w' Hrun) as [Hstate Hobs].
  split; [exact Hstate|]. apply (Hobs (Callback 0)); reflexivity.
Defined.

(** An instance mounted on a repository with another listener; its
    cleanup runs, then the state is set twice. *)
Lemma X4_witness :
  let acts : gmap string Action := ∅ in
  let w := effect 0 (render 0 (λ s, s) isEqualRef
             (onChange (Callback 0) (createRepository (VNum 0))).1) in
  let es := [SetState (VNum 1); SetState (VNum 2)] in
  match run (storifyActions acts) es (cleanup 0 w) with
  | Some w' => selected 0 w' = Some (VNum 0) ∧ state w' = VNum 2
  | None => False
  end.
Proof.
  intros acts w es.
  assert (Hstate : state <$> run (storifyActions acts) es (cleanup 0 w) = Some (VNum 2))
    by (vm_compute; reflexivity).
  destruct (run (storifyActions acts) es (cleanup 0 w)) as [w'|] eqn:Hrun;
    [|discriminate Hstate].
  injection Hstate as Hstate.
  destruct (X4_unmounted_instance_untouched acts 0 (Hook (λ s, s) isEqualRef (VNum 0) 0)
              w w' es) as [Hh _].
  - vm_compute. reflexivity.
  - vm_compute. lia.
  - reflexivity.
  - exact Hrun.
  - split; [|exact Hstate]. unfold selected. by rewrite Hh.
Defined.

(** The state is set between the first render and the effect. *)
Lemma X5_witness :
  let acts : gmap string Action := ∅ in
  let w := createRepository (VNum 0) in
  let es := [SetState (VNum 1)] in
  match run (storifyActions acts) es (render 0 (λ s, s) isEqualRef w) with
  | Some w' =>
    selected 0 (effect 0 w') = Some (VNum 0) ∧ state (effect 0 w') = VNum 1 ∧
    registrations (Refresh 0) (listeners (effect 0 w')) = 1%nat
  | None => False
  end.
Proof.
  intros acts w es.
  destruct (run (storifyActions acts) es (render 0 (λ s, s) isEqualRef w))
    as [w'|] eqn:Hrun; [|vm_compute in Hrun; discriminate Hrun].
  destruct (X5_update_before_effect_missed acts 0 (λ s, s) isEqualRef w w' es)
    as (_ & Hsel & Hstate & Hreg); try reflexivity; [exact Hrun|].
  split; [exact Hsel|]. split; [exact Hstate|exact Hreg].
Defined.

(** The same instance when the effect runs first. *)
Lemma X6_witness :
  let acts : gmap string Action := ∅ in
  let w := createRepository (VNum 0) in
  let es := [SetState (VNum 1); SetState (VNum 1); SetState (VNum 2)] in
  match run (storifyActions acts) es (effect 0 (render 0 (λ s, s) isEqualRef w)) with
  | Some w' => selected 0 w' = Some (state w') ∧ state w' = VNum 2
  | None => False
  end.
Proof.
  intros acts w es.
  assert (Hstate : state <$> run (storifyActions acts) es
                               (effect 0 (render 0 (λ s, s) isEqualRef w)) = Some (VNum 2))
    by (vm_compute; reflexivity).
  destruct (run (storifyActions acts) es (effect 0 (render 0 (λ s, s) isEqualRef w)))
    as [w'|] eqn:Hrun; [|discriminate Hstate].
  injection Hstate as Hstate.
  destruct (X6_selection_follows_state acts 0 (λ s, s) w w' es) as [Hsel _];
    try reflexivity; [exact Hrun|].
  split; [exact Hsel|exact Hstate].
Defined.

(** A selector dividing by zero, on a state that stays the same. *)
Lemma X7_witness :
  let w := effect 0 (render 0 (λ _, VNaN) isEqualRef (createRepository (VNum 0))) in
  ∃ h', hooks (setState (VNum 0) w) !! 0%nat = Some h' ∧
        current h' = VNaN ∧ renders h' = 1%nat.
Proof.
  intros w.
  destruct (X7_NaN_selection_always_rerenders w 0 (Hook (λ _, VNaN) isEqualRef VNaN 0) (VNum 0))
    as [_ Hnan].
  apply Hnan; reflexivity.
Defined.
End RepositoryExtraExamples.

(** ** The tracker over whole runs *)

Section TrackerHistory.
Import Tracker.
Variable actions : gmap string Action.

Lemma step_keeps_subscriptions e w w' :
  invariant actions w → step (wrappedActions (tracker actions).1) e w = Some w' →
  isSubscribed w' = isSubscribed w.
Proof.
  intros Hinv Hstep.
  destruct (step_shape actions e w w' Hinv Hstep) as (? & ? & ? & ? & ? & _ & _ & ->).
  by rewrite handleChange_spec.
Qed.

Lemma run_keeps_subscriptions es w w' :
  invariant actions w → run (wrappedActions (tracker actions).1) es w = Some w' →
  isSubscribed w' = isSubscribed w.
Proof.
  revert w. induction es as [|e es IH]; intros w Hinv; simpl.
  - by intros [= <-].
  - destruct (step (wrappedActions (tracker actions).1) e w) as [w1|] eqn:Hstep;
      simpl; [|done].
    intros Hrun. rewrite (IH w1); [by apply (step_keeps_subscriptions e)| |done].
    by apply (step_invariant actions e w).
Qed.

(** The objects handed over, by position. *)
Lemma run_history es :
  ∀ w, run (wrappedActions (tracker actions).1) es (tracker actions).2 = Some w →
  ∀ i a content, snapshots (trace w) !! i = Some (a, content) →
    a = S i ∧
    ∀ key, is_Some (actions !! key) →
      content !! key
      = Some (Int (Z.of_nat (invocations key (take (S i) es)
                             - settlements key (take (S i) es)))).
Proof.
  induction es as [|e es IH] using rev_ind; intros w Hrun i a content Hi.
  - simpl in Hrun. injection Hrun as <-.
    pose proof (tracker_spec actions) as Hspec.
    destruct (tracker actions) as [t w0]. simpl in *.
    destruct Hspec as (_ & _ & _ & _ & _ & _ & _ & Htr & _).
    by rewrite Htr in Hi.
  - rewrite run_app in Hrun.
    destruct (run (wrappedActions (tracker actions).1) es (tracker actions).2)
      as [w1|] eqn:Hrun1; simpl in Hrun; [|done].
    destruct (step (wrappedActions (tracker actions).1) e w1) as [w2|] eqn:Hstep;
      simpl in Hrun; [|done].
    injection Hrun as <-.
    pose proof (reachable_invariant actions es w1 Hrun1) as Hinv1.
    pose proof (step_invariant actions e w1 w2 Hinv1 Hstep) as Hinv2.
    destruct (step_snapshot actions e w1 w2 Hinv1 Hstep)
      as (a' & content' & Hsnap & _ & Ha' & Hcur & _).
    assert (Hlen : length (snapshots (trace w1)) = length es).
    { rewrite <- (length_fmap fst), (inv_addrs _ _ Hinv1), length_seq.
      rewrite (run_length actions es _ w1 (tracker_invariant actions) Hrun1).
      pose proof (tracker_spec actions) as Hspec.
      destruct (tracker actions) as [t w0]. simpl.
      by destruct Hspec as (_ & _ & _ & _ & -> & _). }
    rewrite Hsnap in Hi. unfold addr in *.
    destruct (decide (i < length es)%nat) as [Hlt|Hge].
    + rewrite lookup_app_l in Hi by (by rewrite Hlen).
      rewrite take_app_le by lia. by apply (IH w1).
    + rewrite lookup_app_r in Hi by (rewrite Hlen; lia).
      rewrite Hlen in Hi.
      destruct (i - length es)%nat as [|j] eqn:Hj; [|by destruct j].
      simpl in Hi. injection Hi as -> ->.
      assert (i = length es) as -> by lia.
      rewrite take_ge by (rewrite length_app; simpl; lia).
      split.
      * rewrite Ha'. rewrite (run_length actions (es ++ [e]) _ w2 (tracker_invariant actions)).
        -- pose proof (tracker_spec actions) as Hspec.
           destruct (tracker actions) as [t w0]. simpl.
           destruct Hspec as (_ & _ & _ & _ & -> & _). rewrite length_app. simpl. lia.
        -- rewrite run_app, Hrun1. simpl. by rewrite Hstep.
      * intros key [f Hf]. rewrite Hcur, (inv_counters _ _ Hinv2), Hf. simpl.
        assert (Hacc : accounted (es ++ [e]) w2).
        { apply (accounted_run actions). rewrite run_app, Hrun1. simpl. by rewrite Hstep. }
        destruct Hacc as (_ & _ & _ & Hcount). specialize (Hcount key).
        do 3 f_equal. lia.
Qed.
End TrackerHistory.

Section TrackerExtras.
Import Tracker.

(** Property X8.  The wrapped actions that [wrapActions] and
    [trackActions] return leave no way to unsubscribe: along every run
    the [isSubscribed] variables are as [wrapActions] set them, true for
    every key, so every phase event reaches the callback. *)
Theorem X8_wrappers_stay_subscribed (actions : gmap string Action) (es : list event)
    (w : world) :
  (run (wrappedActions (tracker actions).1) es (tracker actions).2 = Some w →
     isSubscribed w = isSubscribed (tracker actions).2 ∧
     ∀ key, is_Some (actions !! key) → isSubscribed w !! key = Some true) ∧
  (run (wrapActions actions notify empty_world).1 es
       (wrapActions actions notify empty_world).2 = Some w →
     isSubscribed w = isSubscribed (wrapActions actions notify empty_world).2 ∧
     ∀ key, is_Some (actions !! key) → isSubscribed w !! key = Some true).
Proof.
  split; intros Hrun.
  - split.
    + apply (run_keeps_subscriptions actions es _ w); [apply tracker_invariant|done].
    + apply (inv_subscribed _ _ (reachable_invariant actions es w Hrun)).
  - split.
    + by apply (run_isSubscribed actions es).
    + intros key Hkey. by apply (reachable_subscribed actions es).
Qed.

(** Property X9.  The history of objects handed to the callback of
    [trackActions] is determined by the events: the [k]-th event hands
    over the object at address [k], and for every action it holds the
    number of calls of that action among the first [k] events minus the
    number of those calls settled among them; it never holds a negative
    number or [NaN]. *)
Theorem X9_snapshot_history (actions : gmap string Action) (es : list event)
    (w : world) (i : nat) (a : addr) (content : gmap string num) :
  run (wrappedActions (tracker actions).1) es (tracker actions).2 = Some w →
  snapshots (trace w) !! i = Some (a, content) →
  a = S i ∧
  ∀ key, is_Some (actions !! key) →
    content !! key
    = Some (Int (Z.of_nat (invocations key (take (S i) es)
                           - settlements key (take (S i) es)))).
Proof. intros Hrun. by apply (run_history actions es w Hrun). Qed.
End TrackerExtras.

(** ** useDispatcher *)

Section DispatcherFacts.
Import Tracker Dispatcher.

Lemma replay_spec tr h :
  replay tr h
  = Hook (default (actionsState h) (last (snapshots tr).*1))
      (renders h + length (snapshots tr)).
Proof.
  revert h. induction tr as [|o tr IH] using rev_ind; intros h.
  - simpl. destruct h. simpl. f_equal. lia.
  - unfold replay. rewrite fold_left_app. fold (replay tr h). rewrite IH.
    rewrite snapshots_app.
    destruct o as [k s|f|id o|a c].
    + simpl. by rewrite app_nil_r.
    + simpl. by rewrite app_nil_r.
    + simpl. by rewrite app_nil_r.
    + change (snapshots [Snapshot a c]) with [(a, c)].
      rewrite fmap_app, length_app. change ([(a, c)].*1) with [a].
      rewrite last_snoc. simpl.
      unfold handleChange. simpl. f_equal. lia.
Qed.

Lemma useDispatcher_tracker actions :
  useDispatcher actions
  = (Hook (initialState (tracker actions).1) 0, wrappedActions (tracker actions).1,
     (tracker actions).2).
Proof. unfold useDispatcher, tracker. by destruct (trackActions actions empty_world). Qed.

(** Property X10.  In [useDispatcher], after any run of calls and
    settlements, the ref [actionsState.current] is the object the tracker
    holds last, [forceRender] was called once per event, and the field
    the component reads for an action is the number of its calls not yet
    settled, so it is positive exactly while such a call is in flight. *)
Theorem X10_useDispatcher_live_counters (actions : gmap string Action)
    (es : list event) (w : world) :
  run (useDispatcher actions).1.2 es (useDispatcher actions).2 = Some w →
  actionsState (instance actions w) = promiseState w ∧
  renders (instance actions w) = length es ∧
  ∀ key, is_Some (actions !! key) →
    actionState actions key w = Some (Int (Z.of_nat (inflight key w))) ∧
    (inflight key w + settlements key es = invocations key es)%nat.
Proof.
  unfold actionState, instance. rewrite useDispatcher_tracker. simpl.
  intros Hrun.
  pose proof (reachable_invariant actions es w Hrun) as Hinv.
  pose proof (accounted_run actions es w Hrun) as (_ & _ & _ & Hcount).
  pose proof (run_length actions es _ w (tracker_invariant actions) Hrun) as Hlen.
  assert (H0 : initialState (tracker actions).1 = 0%nat
               ∧ promiseState (tracker actions).2 = 0%nat).
  { pose proof (tracker_spec actions) as Hspec.
    destruct (tracker actions) as [t w0]. simpl.
    by destruct Hspec as (-> & _ & _ & _ & -> & _). }
  destruct H0 as [Hinit Hp0]. rewrite Hp0 in Hlen. simpl in Hlen.
  assert (Hact : actionsState (replay (trace w) (Hook (initialState (tracker actions).1) 0))
                 = promiseState w).
  { rewrite replay_spec. simpl. rewrite (inv_addrs _ _ Hinv), Hinit.
    destruct (promiseState w) as [|p]; [done|]. by rewrite seq_S, last_snoc. }
  rewrite Hact. split; [done|]. split.
  - rewrite replay_spec. simpl.
    rewrite <- (length_fmap fst), (inv_addrs _ _ Hinv), length_seq. done.
  - intros key [f Hf]. split; [|done].
    pose proof (inv_counters _ _ Hinv key) as Hc. unfold counter in Hc.
    by rewrite Hc, Hf.
Qed.
End DispatcherFacts.

(** ** The counter store *)

Section CounterFacts.
Import Counter.

Lemma counterActions_name a : is_Some (counterActions !! name a).
Proof. destruct a; vm_compute; eauto. Qed.

Lemma bound_lookup key : bound !! key = Repo.storifyAction <$> counterActions !! key.
Proof. unfold bound. simpl. apply storifyActions_lookup. Qed.

Lemma ui_call key w :
  is_Some (counterActions !! key) →
  ui (Repo.Call key) w
  = Some (set_repo (Repo.set_next (S (Repo.next (repo w)))
                      (Repo.set_frames (<[Repo.next (repo w) := key]> (Repo.frames (repo w)))
                         (repo w))) w).
Proof.
  intros [f Hf]. unfold ui. simpl. by rewrite bound_lookup, Hf.
Qed.

Lemma ui_settle id key o w :
  Repo.frames (repo w) !! id = Some key → is_Some (counterActions !! key) →
  ui (Repo.Settle id (Fulfilled (VObj o))) w
  = Some (set_repo (Repo.setState (VObj o)
                      (Repo.set_frames (delete id (Repo.frames (repo w))) (repo w))) w).
Proof.
  intros Hframe [f Hf]. unfold ui. simpl. by rewrite Hframe; simpl; rewrite bound_lookup, Hf.
Qed.

Lemma returns_spec result id w s :
  read w = Some s →
  returns result id w
  = Some (World (repo w) (<[brk w := result s]> (objects w)) (S (brk w))
            (<[id := Returned (brk w)]> (tasks w))).
Proof. intros Hs. unfold returns. by rewrite Hs. Qed.



End CounterFacts.

Section CounterExtras.
Import Counter.

End CounterExtras.

Section CounterInvariant.
Import Counter.

Lemma createCounterStore_consistent : consistent createCounterStore.
Proof.
  split; simpl.
  - exists 0%nat. split; [done|]. split; [lia|]. rewrite lookup_singleton_eq. eauto.
  - intros id t. by rewrite lookup_empty.
  - intros id o. by rewrite lookup_empty.
  - intros id id' o. by rewrite lookup_empty.
Qed.

(** A task is added for the call just made: a waiting one, or one that
    returned the object just allocated. *)
Lemma consistent_waiting w key count :
  consistent w → is_Some (counterActions !! key) →
  consistent
    (World (Repo.set_next (S (Repo.next (repo w)))
              (Repo.set_frames (<[Repo.next (repo w) := key]> (Repo.frames (repo w))) (repo w)))
       (objects w) (brk w) (<[Repo.next (repo w) := Waiting count]> (tasks w))).
Proof.
  intros [Hst Htasks Hres Hdis] Hkey. split; simpl.
  - done.
  - intros id t [[<- <-]|[Hne Ht]]%lookup_insert_Some.
    + exists key. by rewrite lookup_insert_eq.
    + destruct (Htasks id t Ht) as (k & Hk & ?). exists k.
      by rewrite lookup_insert_ne.
  - intros id o [[_ [=]]|[Hne Ht]]%lookup_insert_Some. by apply (Hres id).
  - intros id id' o [[_ [=]]|[Hne Ht]]%lookup_insert_Some
      [[_ [=]]|[Hne' Ht']]%lookup_insert_Some.
    by apply (Hdis id id' o).
Qed.

Lemma consistent_returned w id r s :
  consistent w →
  (∃ key, Repo.frames r !! id = Some key ∧ is_Some (counterActions !! key)) →
  Repo.state r = Repo.state (repo w) →
  (∀ id' key, Repo.frames (repo w) !! id' = Some key → is_Some (Repo.frames r !! id') ∧
     (id' ≠ id → Repo.frames r !! id' = Some key)) →
  consistent (World r (<[brk w := s]> (objects w)) (S (brk w))
                (<[id := Returned (brk w)]> (tasks w))).
Proof.
  intros [Hst Htasks Hres Hdis] Hid Hstate Hframes. split; simpl.
  - destruct Hst as (a & Ha & Hlt & Hobj). exists a. rewrite Hstate.
    split; [done|]. split; [lia|]. rewrite lookup_insert_ne by lia. done.
  - intros id' t [[<- <-]|[Hne Ht]]%lookup_insert_Some; [done|].
    destruct (Htasks id' t Ht) as (k & Hk & ?). exists k.
    split; [|done]. apply (Hframes id' k Hk). done.
  - intros id' o [[<- [= <-]]|[Hne Ht]]%lookup_insert_Some.
    + split; [lia|]. split; [rewrite lookup_insert_eq; eauto|].
      destruct Hst as (a & Ha & Hlt & _). rewrite Hstate, Ha. intros [= ->]. lia.
    + destruct (Hres id' o Ht) as (Hlt & Hobj & Hne'). rewrite Hstate.
      split; [lia|]. split; [|done]. rewrite lookup_insert_ne by lia. done.
  - intros id1 id2 o [[<- [= <-]]|[Hne1 Ht1]]%lookup_insert_Some
      [[<- Heq]|[Hne2 Ht2]]%lookup_insert_Some; try done.
    + destruct (Hres id2 _ Ht2) as (Hlt & _). lia.
    + injection Heq as <-. destruct (Hres id1 _ Ht1) as (Hlt & _). lia.
    + by apply (Hdis id1 id2 o).
Qed.

Lemma consistent_ui w r :
  consistent w →
  Repo.state r = Repo.state (repo w) → Repo.frames r = Repo.frames (repo w) →
  consistent (set_repo r w).
Proof.
  intros [Hst Htasks Hres Hdis] Hstate Hframes. split; simpl.
  - by rewrite Hstate.
  - intros id t Ht. rewrite Hframes. apply (Htasks id t Ht).
  - intros id o Ht. rewrite Hstate. apply (Hres id o Ht).
  - done.
Qed.

Lemma step_consistent e w w' : consistent w → step e w = Some w' → consistent w'.
Proof.
  intros Hcon Hstep.
  pose proof Hcon as [Hst Htasks Hres Hdis].
  assert (Hread : is_Some (read w)).
  { destruct Hst as (a & Ha & _ & Hobj). unfold read. by rewrite Ha. }
  destruct Hread as [s Hs].
  destruct e as [a|id|id|c|c|c]; simpl in Hstep.
  - rewrite (ui_call (name a) w (counterActions_name a)) in Hstep. simpl in Hstep.
    assert (Hret : ∀ result w2,
      returns result (Repo.next (repo w))
        (set_repo (Repo.set_next (S (Repo.next (repo w)))
           (Repo.set_frames (<[Repo.next (repo w) := name a]> (Repo.frames (repo w)))
              (repo w))) w) = Some w2 → consistent w2).
    { intros result w2. rewrite (returns_spec _ _ _ s) by done. intros [= <-]. simpl.
      apply consistent_returned; [done| |done|].
      - exists (name a). simpl. rewrite lookup_insert_eq. split; [done|].
        apply counterActions_name.
      - intros id' key Hk. simpl. split.
        + destruct (decide (id' = Repo.next (repo w))) as [->|Hne].
          * rewrite lookup_insert_eq. eauto.
          * rewrite lookup_insert_ne by done. eauto.
        + intros Hne. by rewrite lookup_insert_ne. }
    destruct a as [count|count|].
    + injection Hstep as <-.
      exact (consistent_waiting w (name (Increment count)) (default 1%Z count) Hcon
               (counterActions_name (Increment count))).
    + by apply (Hret _ _ Hstep).
    + by apply (Hret _ _ Hstep).
  - destruct (tasks w !! id) as [[count|o]|] eqn:Ht; [|done|done].
    rewrite (returns_spec _ _ _ s) in Hstep by done. injection Hstep as <-.
    destruct (Htasks id _ Ht) as (key & Hkey & Hin).
    apply consistent_returned; [done|by exists key|done|].
    intros id' k Hk. split; [eauto|done].
  - destruct (tasks w !! id) as [[count|o]|] eqn:Ht; [done| |done].
    destruct (Htasks id _ Ht) as (key & Hkey & Hin).
    rewrite (ui_settle id key) in Hstep by done. injection Hstep as <-.
    destruct (Hres id o Ht) as (Hlt & Hobj & Hne).
    destruct (setState_spec (VObj o) (Repo.set_frames (delete id (Repo.frames (repo w))) (repo w)))
      as (Hstate & _ & Hfr & _).
    split; simpl.
    + exists o. by rewrite Hstate.
    + intros id' t [Hne' Ht']%lookup_delete_Some.
      destruct (Htasks id' t Ht') as (k & Hk & ?). exists k. split; [|done].
      rewrite Hfr. simpl. by rewrite lookup_delete_ne.
    + intros id' o' [Hne' Ht']%lookup_delete_Some.
      destruct (Hres id' o' Ht') as (? & ? & _). split; [done|]. split; [done|].
      rewrite Hstate. intros [= ->]. apply Hne'. by apply (Hdis id id' o').
    + intros id1 id2 o' [_ Ht1]%lookup_delete_Some [_ Ht2]%lookup_delete_Some.
      by apply (Hdis id1 id2 o').
  - unfold ui in Hstep. simpl in Hstep. injection Hstep as <-.
    apply consistent_ui; [done| |];
      unfold Repo.render; by destruct (Repo.hooks (repo w) !! c).
  - unfold ui in Hstep. simpl in Hstep. injection Hstep as <-.
    by apply consistent_ui.
  - unfold ui in Hstep. simpl in Hstep. injection Hstep as <-.
    by apply consistent_ui.
Qed.

Lemma run_consistent es w w' : consistent w → run es w = Some w' → consistent w'.
Proof.
  revert w. induction es as [|e es IH]; intros w Hcon; simpl.
  - by intros [= <-].
  - destruct (step e w) as [w1|] eqn:Hstep; simpl; [|done].
    apply IH. by apply (step_consistent e w).
Qed.
End CounterInvariant.

Section CounterSteps.
Import Counter.

Lemma consistent_read w : consistent w → is_Some (read w).
Proof.
  intros [(a & Ha & _ & Hobj) _ _ _]. unfold read. by rewrite Ha.
Qed.


Lemma invoke_increment count w :
  step (Invoke (Increment count)) w
  = Some (World (called_repo "increment" (repo w)) (objects w) (brk w)
            (<[Repo.next (repo w) := Waiting (default 1%Z count)]> (tasks w))).
Proof.
  unfold step. rewrite (ui_call _ w (counterActions_name (Increment count))). done.
Qed.

Lemma invoke_synchronous a w s :
  synchronous a = true → read w = Some s →
  step (Invoke a) w
  = Some (World (called_repo (name a) (repo w)) (<[brk w := apply s a]> (objects w))
            (S (brk w)) (<[Repo.next (repo w) := Returned (brk w)]> (tasks w))).
Proof.
  intros Hsync Hs. unfold step. rewrite (ui_call _ w (counterActions_name a)). simpl.
  destruct a as [count|count|]; [done| |]; by rewrite (returns_spec _ _ _ s).
Qed.

Lemma timeout_waiting id count w s :
  tasks w !! id = Some (Waiting count) → read w = Some s →
  step (Timeout id) w
  = Some (World (repo w) (<[brk w := incremented count s]> (objects w)) (S (brk w))
            (<[id := Returned (brk w)]> (tasks w))).
Proof.
  intros Ht Hs. unfold step. rewrite Ht. by rewrite (returns_spec _ _ _ s).
Qed.

Lemma resume_returned id o w :
  consistent w → tasks w !! id = Some (Returned o) →
  step (Resume id) w
  = Some (World (Repo.setState (VObj o)
                   (Repo.set_frames (delete id (Repo.frames (repo w))) (repo w)))
            (objects w) (brk w) (delete id (tasks w))).
Proof.
  intros Hcon Ht. unfold step. rewrite Ht.
  destruct (con_tasks _ Hcon id _ Ht) as (key & Hkey & Hin).
  by rewrite (ui_settle id key).
Qed.

Lemma read_resumed o r w ts :
  read (World (Repo.setState (VObj o) r) (objects w) (brk w) ts) = objects w !! o.
Proof.
  unfold read. simpl. by destruct (setState_spec (VObj o) r) as (-> & _).
Qed.
End CounterSteps.

Section CounterStoreExtras.
Import Counter.


(** Property X12.  In every world the counter store reaches,
    [repository.state] refers to a [CounterState] object, so no action
    fails reading it: every action can be called, the timer of a waiting
    [increment] can fire, and a call whose action has returned resumes and
    makes the state the very object the action returned, with the fields
    it was given then, whatever was applied in between. *)
Theorem X12_counter_store_progress (es : list event) (w : world) :
  run es createCounterStore = Some w →
  is_Some (read w) ∧
  (∀ a, is_Some (step (Invoke a) w)) ∧
  (∀ id count, tasks w !! id = Some (Waiting count) → is_Some (step (Timeout id) w)) ∧
  ∀ id o, tasks w !! id = Some (Returned o) →
    ∃ w', step (Resume id) w = Some w' ∧
          Repo.state (repo w') = VObj o ∧
          read w' = objects w !! o ∧ is_Some (objects w !! o).
Proof.
  intros Hrun.
  pose proof (run_consistent es _ w createCounterStore_consistent Hrun) as Hcon.
  destruct (consistent_read w Hcon) as [s Hs].
  split; [eauto|]. split; [|split].
  - intros a. destruct (synchronous a) eqn:Hsync.
    + rewrite (invoke_synchronous a w s Hsync Hs). eauto.
    + destruct a as [count| |]; [|done|done]. rewrite invoke_increment. eauto.
  - intros id count Ht. rewrite (timeout_waiting id count w s Ht Hs). eauto.
  - intros id o Ht. rewrite (resume_returned id o w Hcon Ht).
    eexists. split; [done|]. rewrite read_resumed. simpl.
    destruct (setState_spec (VObj o)
                (Repo.set_frames (delete id (Repo.frames (repo w))) (repo w))) as (-> & _).
    split; [done|]. split; [done|]. apply (con_results _ Hcon id o Ht).
Qed.

End CounterStoreExtras.

Section CounterRenders.
Import Counter.





End CounterRenders.

Section WrappingExtras.
Import Tracker.

(** Property X15.  [wrapActions] returns a wrapped action for exactly
    the keys of the mapping, and so does [trackActions]; while wrapping it
    calls neither the callback nor an action and leaves everything but
    the [isSubscribed] variables of those keys, which it sets, as it
    is. *)
Theorem X15_wrapActions_keys (onChange : string → PromiseState → world → world)
    (actions : gmap string Action) (w : world) :
  dom (wrapActions actions onChange w).1 = dom actions ∧
  dom (wrappedActions (tracker actions).1) = dom actions ∧
  (wrapActions ∅ onChange w).1 = ∅ ∧
  let w' := (wrapActions actions onChange w).2 in
  trace w' = trace w ∧ heap w' = heap w ∧ promiseState w' = promiseState w ∧
  frames w' = frames w ∧
  ∀ key, isSubscribed w' !! key
         = if decide (is_Some (actions !! key)) then Some true else isSubscribed w !! key.
Proof.
  split; [|split; [|split]].
  - apply set_eq. intros key. rewrite !elem_of_dom, wrapActions_lookup.
    by rewrite fmap_is_Some.
  - apply set_eq. intros key. rewrite !elem_of_dom, tracker_lookup.
    by rewrite fmap_is_Some.
  - apply map_eq. intros key. by rewrite wrapActions_lookup, !lookup_empty.
  - destruct (wrapActions_world onChange actions w) as (? & _ & ? & ? & _ & ? & Hsub).
    simpl. repeat split; try done.
    intros key. destruct (decide (is_Some (actions !! key))) as [Hin|Hout]; [by apply Hsub|].
    unfold wrapActions. rewrite wrapEntries_spec. simpl.
    rewrite subscribe_all_lookup, decide_False; [done|].
    intros ([k a] & -> & Hka%elem_of_map_to_list)%list_elem_of_fmap.
    apply Hout. simpl. eauto.
Qed.
End WrappingExtras.

Section TrackerExtraExamples.
Import Tracker Dispatcher.

Lemma X8_witness :
  let actions : gmap string Action := {[ "increment" := 0%nat; "reset" := 1%nat ]} in
  let es := [Call "increment"; Call "reset"; Settle 0 (Rejected (VStr "no"))] in
  match run (wrappedActions (tracker actions).1) es (tracker actions).2,
        run (wrapActions actions notify empty_world).1 es
          (wrapActions actions notify empty_world).2 with
  | Some w, Some w' =>
    isSubscribed w !! "increment" = Some true ∧ isSubscribed w' !! "reset" = Some true
  | _, _ => False
  end.
Proof.
  intros actions es.
  assert (H1 : is_Some (next <$> run (wrappedActions (tracker actions).1) es (tracker actions).2))
    by (vm_compute; eexists; reflexivity).
  assert (H2 : is_Some (next <$> run (wrapActions actions notify empty_world).1 es
                                   (wrapActions actions notify empty_world).2))
    by (vm_compute; eexists; reflexivity).
  destruct (run (wrappedActions (tracker actions).1) es (tracker actions).2)
    as [w|] eqn:Hrun; [|by destruct H1 as [? [=]]].
  destruct (run (wrapActions actions notify empty_world).1 es
              (wrapActions actions notify empty_world).2)
    as [w'|] eqn:Hrun'; [|by destruct H2 as [? [=]]].
  split.
  - destruct (X8_wrappers_stay_subscribed actions es w) as [Hsub _].
    destruct (Hsub Hrun) as [_ Hkey]. apply Hkey. exists 0%nat. vm_compute. reflexivity.
  - destruct (X8_wrappers_stay_subscribed actions es w') as [_ Hsub].
    destruct (Hsub Hrun') as [_ Hkey]. apply Hkey. exists 1%nat. vm_compute. reflexivity.
Defined.

Lemma X9_witness :
  let actions : gmap string Action := {[ "increment" := 0%nat; "reset" := 1%nat ]} in
  let es := [Call "increment"; Call "increment"; Settle 0 (Fulfilled VNull); Call "reset"] in
  match run (wrappedActions (tracker actions).1) es (tracker actions).2 with
  | Some w =>
    match snapshots (trace w) !! 2%nat with
    | Some (a, content) => a = 3%nat ∧ content !! "increment" = Some (Int 1)
    | None => False
    end
  | None => False
  end.
Proof.
  intros actions es.
  assert (Hthird : (λ w, fst <$> snapshots (trace w) !! 2%nat)
                     <$> run (wrappedActions (tracker actions).1) es (tracker actions).2
                   = Some (Some 3%nat)) by (vm_compute; reflexivity).
  destruct (run (wrappedActions (tracker actions).1) es (tracker actions).2)
    as [w|] eqn:Hrun; [|discriminate Hthird].
  injection Hthird as Hthird.
  destruct (snapshots (trace w) !! 2%nat) as [[a content]|] eqn:Hsnap; [|discriminate Hthird].
  destruct (X9_snapshot_history actions es w 2 a content Hrun Hsnap) as [Ha Hcontent].
  split; [exact Ha|]. rewrite (Hcontent "increment").
  - vm_compute. reflexivity.
  - exists 0%nat. vm_compute. reflexivity.
Defined.

Lemma X10_witness :
  let actions : gmap string Action := {[ "increment" := 0%nat; "reset" := 1%nat ]} in
  let es := [Call "increment"; Call "increment"; Settle 0 (Fulfilled VNull); Call "reset"] in
  match run (useDispatcher actions).1.2 es (useDispatcher actions).2 with
  | Some w =>
    renders (instance actions w) = 4%nat ∧
    actionState actions "increment" w = Some (Int 1) ∧
    actionState actions "reset" w = Some (Int 1)
  | None => False
  end.
Proof.
  intros actions es.
  assert (Hsome : is_Some (next <$> run (useDispatcher actions).1.2 es (useDispatcher actions).2))
    by (vm_compute; eexists; reflexivity).
  destruct (run (useDispatcher actions).1.2 es (useDispatcher actions).2)
    as [w|] eqn:Hrun; [|by destruct Hsome as [? [=]]].
  destruct (X10_useDispatcher_live_counters actions es w Hrun) as (_ & Hren & Hkeys).
  destruct (Hkeys "increment") as [Hinc Hninc]; [exists 0%nat; vm_compute; reflexivity|].
  destruct (Hkeys "reset") as [Hreset Hnreset]; [exists 1%nat; vm_compute; reflexivity|].
  assert (Hs1 : settlements "increment" es = 1%nat) by (vm_compute; reflexivity).
  assert (Hi1 : invocations "increment" es = 2%nat) by (vm_compute; reflexivity).
  assert (Hs0 : settlements "reset" es = 0%nat) by (vm_compute; reflexivity).
  assert (Hi0 : invocations "reset" es = 1%nat) by (vm_compute; reflexivity).
  assert (H1 : inflight "increment" w = 1%nat) by lia.
  assert (H0 : inflight "reset" w = 1%nat) by lia.
  split; [exact Hren|]. split.
  - rewrite Hinc, H1. reflexivity.
  - rewrite Hreset, H0. reflexivity.
Defined.
End TrackerExtraExamples.

Section CounterExamples.
Import Counter.


Lemma X12_witness :
  match run [Invoke (Increment None); Invoke Reset] createCounterStore with
  | Some w =>
    is_Some (step (Timeout 0) w) ∧
    ∃ w', step (Resume 1) w = Some w' ∧ Repo.state (repo w') = VObj 1
  | None => False
  end.
Proof.
  assert (Htasks : (λ w, (tasks w !! 0%nat, tasks w !! 1%nat))
                     <$> run [Invoke (Increment None); Invoke Reset] createCounterStore
                   = Some (Some (Waiting 1), Some (Returned 1)))
    by (vm_compute; reflexivity).
  destruct (run [Invoke (Increment None); Invoke Reset] createCounterStore)
    as [w|] eqn:Hrun; [|discriminate Htasks].
  injection Htasks as Ht0 Ht1.
  destruct (X12_counter_store_progress _ w Hrun) as (_ & _ & Htimeout & Hresume).
  split; [by apply (Htimeout 0%nat 1%Z)|].
  destruct (Hresume 1%nat 1%nat Ht1) as (w' & Hstep & Hstate & _).
  exists w'. split; [exact Hstep|exact Hstate].
Defined.


End CounterExamples.
